(** * Exploded-assembly layout engine of [scripts/blender_explode.py]

    A shallow embedding of the geometry and scheduling code of the script:
    the part size estimator ([get_object_size]), the arrow generator
    ([create_arrow]), the camera framer ([frame_objects]) and the assembly
    step loop of [main], followed by the properties the specification
    states about them.

    Numbers.  The script computes with Python floats.  Every function below
    is written once, over an interface [Scalar] of the arithmetic the script
    uses, and is run at two instances: binary64 floats (what CPython
    executes; used to evaluate the code on concrete inputs) and the real
    numbers (the exact reading in which the specification's formulas are
    written; used for the statements that quantify over all inputs). *)

From Stdlib Require Import Floats Reals Lra Lia ZArith Ascii String List DecimalString.
From Stdlib Require DecimalNat DecimalFacts.
From stdpp Require Import gmap strings list.

Set Default Proof Using "Type".
Local Open Scope Z_scope.

(* ===================================================================== *)
(** * Scalars *)
(* ===================================================================== *)

(** The arithmetic of Python numbers that the script relies on.  [s_of_Z]
    is the conversion of an [int] operand in mixed arithmetic. *)
Class Scalar (F : Type) := {
  s_of_Z : Z -> F;
  s_add : F -> F -> F;
  s_sub : F -> F -> F;
  s_mul : F -> F -> F;
  s_div : F -> F -> F;
  s_opp : F -> F;
  s_abs : F -> F;
  s_sqrt : F -> F;
  s_ltb : F -> F -> bool
}.

(** [math.cos] and [math.sin], used by the fallback explode direction. *)
Class Trig (F : Type) := {
  s_cos : F -> F;
  s_sin : F -> F
}.

Declare Scope scalar_scope.
Delimit Scope scalar_scope with sc.
Infix "+" := s_add : scalar_scope.
Infix "-" := s_sub : scalar_scope.
Infix "*" := s_mul : scalar_scope.
Infix "/" := s_div : scalar_scope.
Infix "<?" := s_ltb : scalar_scope.

(** A decimal literal [n/d] of the source text, e.g. [0.05] is [dec 5 100].
    At binary64 the correctly rounded quotient of two exactly representable
    integers is the double nearest to the decimal, which is the value
    Python's parser gives the literal. *)
Definition dec {F} `{Scalar F} (n d : Z) : F := (s_of_Z n / s_of_Z d)%sc.

(** Python's two-argument [min] and [max]: the first argument is kept
    unless the second compares strictly below (above) it. *)
Definition py_min {F} `{Scalar F} (a b : F) : F := if (b <? a)%sc then b else a.
Definition py_max {F} `{Scalar F} (a b : F) : F := if (a <? b)%sc then b else a.

(** ** The real numbers *)

Definition Rltb (a b : R) : bool := if Rlt_dec a b then true else false.

#[export] Instance Scalar_R : Scalar R := {|
  s_of_Z := IZR;
  s_add := Rplus;
  s_sub := Rminus;
  s_mul := Rmult;
  s_div := Rdiv;
  s_opp := Ropp;
  s_abs := Rabs;
  s_sqrt := sqrt;
  s_ltb := Rltb
|}.

#[export] Instance Trig_R : Trig R := {| s_cos := cos; s_sin := sin |}.

(** ** Binary64 floats *)

Definition float_of_Z (z : Z) : float :=
  match z with
  | Z0 => PrimFloat.of_uint63 (Uint63.of_Z 0)
  | Zpos _ => PrimFloat.of_uint63 (Uint63.of_Z z)
  | Zneg p => PrimFloat.opp (PrimFloat.of_uint63 (Uint63.of_Z (Zpos p)))
  end.

#[export] Instance Scalar_float : Scalar float := {|
  s_of_Z := float_of_Z;
  s_add := PrimFloat.add;
  s_sub := PrimFloat.sub;
  s_mul := PrimFloat.mul;
  s_div := PrimFloat.div;
  s_opp := PrimFloat.opp;
  s_abs := PrimFloat.abs;
  s_sqrt := PrimFloat.sqrt;
  s_ltb := PrimFloat.ltb
|}.

(* ===================================================================== *)
(** * Vectors ([mathutils.Vector]) *)
(* ===================================================================== *)

Record Vec (F : Type) : Type := mkVec { vx : F; vy : F; vz : F }.
Arguments mkVec {F} _ _ _.
Arguments vx {F} _.
Arguments vy {F} _.
Arguments vz {F} _.

Section Vectors.
Context {F : Type} `{Scalar F}.
Local Open Scope scalar_scope.

Definition vzero : Vec F := mkVec (s_of_Z 0) (s_of_Z 0) (s_of_Z 0).

Definition vadd (a b : Vec F) : Vec F :=
  mkVec (vx a + vx b) (vy a + vy b) (vz a + vz b).

Definition vsub (a b : Vec F) : Vec F :=
  mkVec (vx a - vx b) (vy a - vy b) (vz a - vz b).

(** [v * k] *)
Definition vscale (a : Vec F) (k : F) : Vec F :=
  mkVec (vx a * k) (vy a * k) (vz a * k).

(** [v / k] *)
Definition vdiv (a : Vec F) (k : F) : Vec F :=
  mkVec (vx a / k) (vy a / k) (vz a / k).

(** [v.length] *)
Definition vlength (a : Vec F) : F :=
  s_sqrt (vx a * vx a + vy a * vy a + vz a * vz a).

(** [v.normalized()]: the vector over its length; mathutils leaves a
    vector of length zero at zero instead of dividing. *)
Definition normalized (a : Vec F) : Vec F :=
  if s_of_Z 0 <? vlength a then vdiv a (vlength a) else vzero.

(** Python's [sum(xs)] over numbers starts from the integer [0]. *)
Definition py_sum (xs : list F) : F := fold_left s_add xs (s_of_Z 0).

(** [sum(vs, Vector())] *)
Definition vsum (vs : list (Vec F)) : Vec F := fold_left vadd vs vzero.

(** [len(xs)] as an operand of float arithmetic. *)
Definition py_len {A} (xs : list A) : F := s_of_Z (Z.of_nat (length xs)).
End Vectors.

(* ===================================================================== *)
(** * Configuration constants *)
(* ===================================================================== *)

Section Config.
Context {F : Type} `{Scalar F}.

Definition ARROW_THICKNESS_RATIO : F := dec 5 100.
Definition ARROW_HEAD_SIZE_RATIO : F := dec 15 100.
Definition ARROW_MIN_THICKNESS : F := dec 2 100.
Definition ARROW_MAX_THICKNESS : F := dec 15 100.
Definition ARROW_MIN_HEAD_SIZE : F := dec 6 100.
Definition ARROW_MAX_HEAD_SIZE : F := dec 4 10.
Definition ARROW_MIN_LENGTH_FACTOR : F := dec 5 10.
Definition EXPLODE_FACTOR : F := dec 8 10.
Definition MAX_EXPLODE_DISTANCE : F := dec 10 1.
Definition CAMERA_DISTANCE_FACTOR : F := dec 15 10.
(** The threshold [1e-6] of the degeneracy tests. *)
Definition EPS : F := dec 1 1000000.
End Config.

Definition TARGET_STEPS : nat := 6.

(* ===================================================================== *)
(** * Parts and the size estimator *)
(* ===================================================================== *)

(** Vectors that the script stores (a part's [location], the values of
    [base_positions]) live in a store and are referred to by address, so
    that in-place updates such as [part.location.z += d] and the copies
    made by [.copy()] are told apart. *)
Definition addr := nat.

(** A part object: its Blender [name], the vector its [location] attribute
    refers to, and its bounding-box [dimensions] ([None]: an object without
    that attribute). *)
Record Part (F : Type) : Type := mkPart {
  name : string;
  location : addr;
  dimensions : option (Vec F)
}.
Arguments mkPart {F} _ _ _.
Arguments name {F} _.
Arguments location {F} _.
Arguments dimensions {F} _.

Section Size.
Context {F : Type} `{Scalar F}.
Local Open Scope scalar_scope.

(** [get_object_size(obj)] *)
Definition get_object_size (obj : option (Part F)) : F :=
  match obj with
  | None => dec 1 1
  | Some o =>
    match dimensions o with
    | None => dec 1 1
    | Some dims =>
      let valid_dims :=
        List.filter (fun d => EPS <? d) [vx dims; vy dims; vz dims] in
      match valid_dims with
      | [] => EPS
      | _ :: _ => py_sum valid_dims / py_len valid_dims
      end
    end
  end.
End Size.

(* ===================================================================== *)
(** * The arrow generator *)
(* ===================================================================== *)

(** What [create_arrow] builds: the segment it ends up with ([arrow_end],
    [arrow_height]) and the parameters it passes to the cylinder and cone
    primitives.  The Blender operators themselves (mesh creation, material,
    join) are outside the model and taken to succeed; the rotation of the
    two meshes is not represented. *)
Record Arrow (F : Type) : Type := mkArrow {
  arrow_end : Vec F;
  arrow_height : F;
  shaft_radius : F;
  shaft_depth : F;
  shaft_location : Vec F;
  head_radius : F;
  head_depth : F;
  head_location : Vec F
}.
Arguments mkArrow {F} _ _ _ _ _ _ _ _.
Arguments arrow_end {F} _.
Arguments arrow_height {F} _.
Arguments shaft_radius {F} _.
Arguments shaft_depth {F} _.
Arguments shaft_location {F} _.
Arguments head_radius {F} _.
Arguments head_depth {F} _.
Arguments head_location {F} _.

Section ArrowGen.
Context {F : Type} `{Scalar F}.
Local Open Scope scalar_scope.

(** The block under [if height < min_arrow_length]: the end point, the
    direction and the height the function continues with, or [None] where
    it returns without an arrow. *)
Definition adjust_segment (start end_ direction : Vec F) (height min_arrow_length : F)
  : option (Vec F * Vec F * F) :=
  if height <? min_arrow_length then
    if EPS <? vlength direction then
      let normalized_direction := normalized direction in
      let end' := vadd start (vscale normalized_direction height) in
      let direction' := vsub end' start in
      Some (end', direction', vlength direction')
    else None
  else Some (end_, direction, height).

(** [create_arrow(start, end, target_part)], inside Blender. *)
Definition create_arrow (start end_ : Vec F) (target_part : option (Part F))
  : option (Arrow F) :=
  let direction := vsub end_ start in
  let height := vlength direction in
  if height <? dec 1 100 then None
  else
    let part_size := get_object_size target_part in
    let min_arrow_length := part_size * ARROW_MIN_LENGTH_FACTOR in
    match adjust_segment start end_ direction height min_arrow_length with
    | None => None
    | Some (end1, direction1, height1) =>
      let thickness :=
        py_max ARROW_MIN_THICKNESS
               (py_min ARROW_MAX_THICKNESS (part_size * ARROW_THICKNESS_RATIO)) in
      let head_size :=
        py_max ARROW_MIN_HEAD_SIZE
               (py_min ARROW_MAX_HEAD_SIZE (part_size * ARROW_HEAD_SIZE_RATIO)) in
      let head_depth := height1 * dec 3 10 in
      let head_size := py_min head_size (head_depth * dec 15 10) in
      Some {| arrow_end := end1;
              arrow_height := height1;
              shaft_radius := thickness;
              shaft_depth := height1 * dec 75 100;
              shaft_location := vadd start (vscale direction1 (height1 * dec 375 1000));
              head_radius := head_size;
              head_depth := head_depth;
              head_location := vadd start (vscale direction1 (height1 * dec 85 100)) |}
    end.
End ArrowGen.

(* ===================================================================== *)
(** * The camera framer *)
(* ===================================================================== *)

(** [obj.type] *)
Inductive ObjType : Type := MESH | EMPTY | LIGHT | CAMERA | OTHER.

(** [obj.matrix_world]: the rows of the linear part and the translation
    column; [matrix_world @ v] treats [v] as a point. *)
Record Matrix (F : Type) : Type := mkMatrix {
  row_x : Vec F;
  row_y : Vec F;
  row_z : Vec F;
  translation : Vec F
}.
Arguments mkMatrix {F} _ _ _ _.
Arguments row_x {F} _.
Arguments row_y {F} _.
Arguments row_z {F} _.
Arguments translation {F} _.

(** [obj.bound_box]: missing as an attribute, present and [None], or the
    corners of the box in object space (eight in Blender; kept as a first
    corner and the others). *)
Inductive BoundBox (F : Type) : Type :=
  | NoBoundBox
  | BoundBoxNone
  | Corners (c : Vec F) (cs : list (Vec F)).
Arguments NoBoundBox {F}.
Arguments BoundBoxNone {F}.
Arguments Corners {F} _ _.

(** An object handed to [frame_objects]. [in_scene] is the test
    [obj.name in bpy.data.objects]. *)
Record SceneObj (F : Type) : Type := mkSceneObj {
  obj_name : string;
  in_scene : bool;
  obj_type : ObjType;
  bound_box : BoundBox F;
  matrix_world : Matrix F;
  hide_viewport : bool;
  empty_display_size : option F
}.
Arguments mkSceneObj {F} _ _ _ _ _ _ _.
Arguments obj_name {F} _.
Arguments in_scene {F} _.
Arguments obj_type {F} _.
Arguments bound_box {F} _.
Arguments matrix_world {F} _.
Arguments hide_viewport {F} _.
Arguments empty_display_size {F} _.

(** The messages [frame_objects] logs. *)
Inductive FrameLog (F : Type) : Type :=
  | WarnNoValidTargets
  | ErrorNoCamera
  | WarnNoBounds
  | InfoFramed (center : Vec F) (size distance : F).
Arguments WarnNoValidTargets {F}.
Arguments ErrorNoCamera {F}.
Arguments WarnNoBounds {F}.
Arguments InfoFramed {F} _ _ _.

Section Framer.
Context {F : Type} `{Scalar F}.
Local Open Scope scalar_scope.

Definition vdot (a b : Vec F) : F := vx a * vx b + vy a * vy b + vz a * vz b.

(** [matrix_world @ corner] *)
Definition mat_apply (m : Matrix F) (v : Vec F) : Vec F :=
  mkVec (vdot (row_x m) v + vx (translation m))
        (vdot (row_y m) v + vy (translation m))
        (vdot (row_z m) v + vz (translation m)).

(** The running corners [(min_coord, max_coord)].  They start at
    [(+inf, -inf)], which is [None] here: [min(inf, x)] and [max(-inf, x)]
    are [x] for every number [x].  Since every branch that sets
    [valid_bounds_found] also takes at least one point in, the flag is
    [True] exactly when the corners are no longer [None]. *)
Definition Bounds : Type := option (Vec F * Vec F).

(** One round of the six [min]/[max] updates, for the box [lo .. hi]
    (a single point when [lo = hi]). *)
Definition extend (b : Bounds) (lo hi : Vec F) : Bounds :=
  match b with
  | None => Some (lo, hi)
  | Some (min_coord, max_coord) =>
    Some (mkVec (py_min (vx min_coord) (vx lo))
                (py_min (vy min_coord) (vy lo))
                (py_min (vz min_coord) (vz lo)),
          mkVec (py_max (vx max_coord) (vx hi))
                (py_max (vy max_coord) (vy hi))
                (py_max (vz max_coord) (vz hi)))
  end.

Definition is_valid_target (o : option (SceneObj F)) : option (SceneObj F) :=
  match o with
  | Some obj => if in_scene obj then Some obj else None
  | None => None
  end.

(** The body of [for obj in valid_targets]. *)
Definition accumulate (b : Bounds) (obj : SceneObj F) : Bounds :=
  match bound_box obj with
  | BoundBoxNone => b
  | Corners c cs =>
    if hide_viewport obj then b
    else
      fold_left (fun acc corner => extend acc corner corner)
                (List.map (mat_apply (matrix_world obj)) (c :: cs)) b
  | NoBoundBox =>
    match obj_type obj, empty_display_size obj with
    | EMPTY, Some size =>
      if hide_viewport obj then b
      else
        let s := size * dec 5 10 in
        let loc := translation (matrix_world obj) in
        extend b (mkVec (vx loc - s) (vy loc - s) (vz loc - s))
                 (mkVec (vx loc + s) (vy loc + s) (vz loc + s))
    | LIGHT, _ | CAMERA, _ =>
      if hide_viewport obj then b
      else
        let pos := translation (matrix_world obj) in
        extend b pos pos
    | _, _ => b
    end
  end.

(** The fixed viewing direction [(0.8, -0.8, 0.6)]. *)
Definition CAMERA_OFFSET_DIRECTION : Vec F :=
  mkVec (dec 8 10) (s_opp (dec 8 10)) (dec 6 10).

(** [frame_objects(target_objects)], inside Blender.  [camera] is the
    location of [bpy.context.scene.camera] ([None]: the scene has no
    camera); the result is the camera location afterwards, with the
    messages logged.  The orientation set by [look_at] is a function of
    the new location and the center and is not represented. *)
Definition frame_objects (camera : option (Vec F)) (target_objects : list (option (SceneObj F)))
  : option (Vec F) * list (FrameLog F) :=
  let valid_targets := omap is_valid_target target_objects in
  match valid_targets with
  | [] => (camera, [WarnNoValidTargets])
  | _ :: _ =>
    match camera with
    | None => (None, [ErrorNoCamera])
    | Some _ =>
      let bounds := fold_left accumulate valid_targets None in
      let '(center, size, log) :=
        match bounds with
        | None => (vzero, dec 5 1, [WarnNoBounds])
        | Some (min_coord, max_coord) =>
          (vdiv (vadd min_coord max_coord) (dec 2 1),
           py_max (vlength (vsub max_coord min_coord)) (dec 5 10),
           [])
        end in
      let distance := size * CAMERA_DISTANCE_FACTOR in
      let camera_offset := vscale (normalized CAMERA_OFFSET_DIRECTION) distance in
      (Some (vadd center camera_offset), log ++ [InfoFramed center size distance])
    end
  end.
End Framer.

(* ===================================================================== *)
(** * Text helpers *)
(* ===================================================================== *)

Local Open Scope string_scope.

(** [str(n)] for a non-negative integer. *)
Definition str_of_nat (n : nat) : string := NilEmpty.string_of_uint (Nat.to_uint n).

Fixpoint zeros (k : nat) : string :=
  match k with
  | O => EmptyString
  | S k' => String "0"%char (zeros k')
  end.

(** [f"{n:0<width>d}"] *)
Definition zero_padded (width n : nat) : string :=
  let s := str_of_nat n in
  (zeros (width - String.length s) ++ s)%string.

Fixpoint join (sep : string) (xs : list string) : string :=
  match xs with
  | [] => EmptyString
  | [x] => x
  | x :: rest => (x ++ sep ++ join sep rest)%string
  end.

(** [s.capitalize()] on the lower-case type names it is applied to. *)
Definition capitalize (s : string) : string :=
  match s with
  | EmptyString => EmptyString
  | String c rest =>
    let n := Ascii.nat_of_ascii c in
    String (if ((97 <=? n) && (n <=? 122))%nat then Ascii.ascii_of_nat (n - 32) else c) rest
  end.

(* ===================================================================== *)
(** * Metadata records *)
(* ===================================================================== *)

(** An entry of [metadata['parts']]. *)
Record PartInfo : Type := mkPartInfo {
  pi_name : string;
  pi_blender_name : string;
  pi_number : string;
  pi_type : string;
  pi_quantity : nat
}.

(** An entry of [metadata['steps']]. *)
Record StepEntry : Type := mkStepEntry {
  image : string;
  caption : string;
  parts_added_ids : list string
}.

(** The dictionary written to [metadata.json]. *)
Record Metadata : Type := mkMetadata {
  md_parts : list PartInfo;
  md_steps : list StepEntry;
  has_parts_diagram : bool;
  time_estimate : string
}.

(** The last statements of [main]: the final entry is appended to the step
    list and the time estimate is derived from the two lists. *)
Definition final_step : StepEntry :=
  mkStepEntry "final_assembly.png" "Assembly complete." [].

Definition time_estimate_minutes (md_parts : list PartInfo) (md_steps : list StepEntry) : nat :=
  let num_parts := length md_parts in
  let num_steps := (length md_steps - 1)%nat in
  Nat.max 5 (num_parts * 1 + num_steps * 2).

Definition finish_metadata (md_parts : list PartInfo) (diagram : bool)
    (step_data : list StepEntry) : Metadata :=
  let steps := (step_data ++ [final_step])%list in
  mkMetadata md_parts steps diagram
             (str_of_nat (time_estimate_minutes md_parts steps) ++ " minutes").

(* ===================================================================== *)
(** * Step partitioning *)
(* ===================================================================== *)

Local Open Scope nat_scope.

(** [range(0, stop, step)], unrolled at most [fuel] times. *)
Fixpoint range_from (fuel i stop step : nat) : list nat :=
  match fuel with
  | O => []
  | S fuel' => if i <? stop then i :: range_from fuel' (i + step) stop step else []
  end.

(** [range(0, stop, step)] for a positive [step]: at most [stop] values. *)
Definition py_range (stop step : nat) : list nat := range_from stop 0 stop step.

(** [math.ceil(a / b)] for a positive [b].  The quotient is taken exactly;
    the float quotient the script forms gives the same ceiling for every
    count below [2^53]. *)
Definition ceil_div (a b : nat) : nat := (a + b - 1) / b.

(** [step_size], for a given [TARGET_STEPS]. *)
Definition step_size_for (target_steps num_total_parts : nat) : nat :=
  if (0 <? target_steps) && (0 <? num_total_parts)
  then Nat.max 1 (ceil_div num_total_parts target_steps)
  else Nat.max 1 (ceil_div num_total_parts 5).

(** [parts_in_this_step_indices = range(i, min(i + step_size, n))] *)
Definition parts_in_this_step_indices (i step_size num_total_parts : nat) : list nat :=
  seq i (Nat.min (i + step_size) num_total_parts - i).

(** [is_assembled = j < i] *)
Definition is_assembled (i j : nat) : bool := j <? i.

(* ===================================================================== *)
(** * The state of [main] *)
(* ===================================================================== *)

(** What the step loop of [main] reads and writes: the store of vectors,
    the part objects (in the order of the list [parts]; a part is referred
    to by its index there), the dictionary [base_positions] from names to
    the vectors recorded for them, the list [active_parts_in_scene], the
    arrows created so far and the step entries collected so far. *)
Record World (F : Type) : Type := mkWorld {
  heap : list (Vec F);
  parts : list (Part F);
  base_positions : gmap string addr;
  active_parts_in_scene : list nat;
  all_step_arrows : list (Arrow F);
  step_data : list StepEntry
}.
Arguments mkWorld {F} _ _ _ _ _ _.
Arguments heap {F} _.
Arguments parts {F} _.
Arguments base_positions {F} _.
Arguments active_parts_in_scene {F} _.
Arguments all_step_arrows {F} _.
Arguments step_data {F} _.

Section Store.
Context {F : Type} `{Scalar F}.

(** The value of the vector at an address. *)
Definition read (w : World F) (a : addr) : Vec F := default vzero (heap w !! a).

(** The value of [part.location]. *)
Definition part_position (w : World F) (p : Part F) : Vec F := read w (location p).

(** The position of the part at index [k]. *)
Definition position_at (w : World F) (k : nat) : option (Vec F) :=
  part_position w <$> parts w !! k.

(** The value recorded for a name in [base_positions]. *)
Definition base_position (w : World F) (n : string) : option (Vec F) :=
  read w <$> base_positions w !! n.

(** [parts[k].location = v] for a vector [v] that the right-hand side
    has just built (a [.copy()] or the result of an operator): the
    attribute is bound to a new vector. *)
Definition set_location (k : nat) (v : Vec F) (w : World F) : World F :=
  mkWorld (heap w ++ [v])
          (alter (fun p => mkPart (name p) (length (heap w)) (dimensions p)) k (parts w))
          (base_positions w) (active_parts_in_scene w)
          (all_step_arrows w) (step_data w).

(** An update in place of the vector [parts[k].location] refers to, as
    in [part.location.z += d]. *)
Definition update_location (k : nat) (f : Vec F -> Vec F) (w : World F) : World F :=
  match parts w !! k with
  | Some p =>
    mkWorld (alter f (location p) (heap w)) (parts w)
            (base_positions w) (active_parts_in_scene w)
            (all_step_arrows w) (step_data w)
  | None => w
  end.

(** [parts[k].name = new_name].  Blender keeps object names unique: the
    assignment stores the requested name when no other object of the
    scene carries it, which is the case represented here; on a collision
    Blender would store the name with a numeric suffix. *)
Definition rename (k : nat) (new_name : string) (w : World F) : World F :=
  mkWorld (heap w)
          (alter (fun p => mkPart new_name (location p) (dimensions p)) k (parts w))
          (base_positions w) (active_parts_in_scene w)
          (all_step_arrows w) (step_data w).
End Store.

(* ===================================================================== *)
(** * The statements of [main] before the step loop *)
(* ===================================================================== *)

Section Prelude.
Context {F : Type} `{Scalar F}.
Local Open Scope scalar_scope.

(** [base_positions = {p.name: p.location.copy() for p in parts if p}] *)
Definition record_base (w : World F) (p : Part F) : World F :=
  mkWorld (heap w ++ [part_position w p]) (parts w)
          (<[name p := length (heap w)]> (base_positions w))
          (active_parts_in_scene w) (all_step_arrows w) (step_data w).

Definition record_base_positions (w : World F) : World F :=
  fold_left record_base (parts w) w.

Definition py_max3 (a b c : F) : F := py_max (py_max a b) c.
Definition py_min3 (a b c : F) : F := py_min (py_min a b) c.

(** The part type heuristic of [assign_materials_and_names]. *)
Definition classify (dims : Vec F) : string :=
  let height := if EPS <? vz dims then vz dims else EPS in
  let width := if EPS <? vx dims then vx dims else EPS in
  let depth := if EPS <? vy dims then vy dims else EPS in
  let volume := height * width * depth in
  let max_dim := py_max3 height width depth in
  let min_dim := py_min3 height width depth in
  if (volume <? dec 5 1000) && (max_dim <? dec 15 100) then "screw"%string
  else if dec 25 10 <? height / py_max3 width depth EPS then "leg"%string
  else if (dec 25 10 <? width / py_max3 height depth EPS)
          || (dec 25 10 <? depth / py_max3 height width EPS)
       then (if min_dim / max_dim <? dec 3 10 then "beam"%string else "leg"%string)
  else if (EPS <? max_dim)
          && (s_abs (width - depth) <? dec 15 100 * py_max width depth)
          && (height / max_dim <? dec 4 10)
       then "seat"%string
  else "part"%string.

(** The loop body of [assign_materials_and_names], as far as names and
    metadata go: the state is [part_counts], [processed_parts_info] and
    the world.  An object without [dimensions] is skipped.  The entry's
    [blender_name] is [part.name] read back after the assignment, which
    is the name [rename] stores. *)
Definition assign_one (st : gmap string nat * list PartInfo * World F) (i : nat)
  : gmap string nat * list PartInfo * World F :=
  let '(part_counts, processed_parts_info, w) := st in
  match parts w !! i with
  | None => st
  | Some part =>
    match dimensions part with
    | None => st
    | Some dims =>
      let part_type := classify dims in
      let part_number_in_type := (default 0 (part_counts !! part_type) + 1)%nat in
      let part_name :=
        (capitalize part_type ++ " " ++ str_of_nat part_number_in_type)%string in
      let part_id := ("P" ++ zero_padded 3 (i + 1))%string in
      (<[part_type := part_number_in_type]> part_counts,
       (processed_parts_info ++ [mkPartInfo part_name part_name part_id part_type 1])%list,
       rename i part_name w)
    end
  end.

(** [metadata = assign_materials_and_names(parts)]: the entries of
    [metadata['parts']] and the world with the parts renamed. *)
Definition assign_materials_and_names (w : World F) : list PartInfo * World F :=
  let '(_, infos, w') :=
    fold_left assign_one (seq 0 (length (parts w))) (∅, [], w) in
  (infos, w').

(** [part.location = base_positions[part.name].copy()] under the guard
    [part.name in base_positions]; a part whose name is not a key is left
    alone (the script logs a warning). *)
Definition reset_part (w : World F) (k : nat) : World F :=
  match parts w !! k with
  | Some part =>
    match base_positions w !! name part with
    | Some a => set_location k (read w a) w
    | None => w
    end
  | None => w
  end.

Definition reset_parts (ks : list nat) (w : World F) : World F :=
  fold_left reset_part ks w.

(** [for part in parts: ...] reset, as in the overview, before each step
    and before the final image. *)
Definition reset_all (w : World F) : World F :=
  reset_parts (seq 0 (length (parts w))) w.

(** [math.ceil(math.sqrt(n))] *)
Definition ceil_sqrt (n : nat) : nat :=
  let r := Nat.sqrt n in if (r * r =? n)%nat then r else S r.

(** The parts diagram: every part is moved to its cell of a square grid
    by assignments to the components of its [location]. *)
Definition arrange_grid (w : World F) : World F :=
  let total_parts := length (parts w) in
  let grid_size := ceil_sqrt total_parts in
  let avg_part_size :=
    py_sum (List.map (fun p => get_object_size (Some p)) (parts w))
    / s_of_Z (Z.of_nat total_parts) in
  let spacing := py_max (avg_part_size * dec 25 10) (dec 15 10) in
  fold_left
    (fun w i =>
       let row := (i / grid_size)%nat in
       let col := (i mod grid_size)%nat in
       update_location i
         (fun _ => mkVec (s_of_Z (Z.of_nat col) * spacing)
                         (s_of_Z (- Z.of_nat row) * spacing)
                         (s_of_Z 0)) w)
    (seq 0 total_parts) w.
End Prelude.

(* ===================================================================== *)
(** * The step loop of [main] *)
(* ===================================================================== *)

Section Explosion.
Context {F : Type} `{Scalar F}.
Local Open Scope scalar_scope.

(** [(num_total_parts - j) / num_total_parts if num_total_parts > 0 else 0] *)
Definition parts_remaining_factor (num_total_parts j : nat) : F :=
  if (0 <? num_total_parts)%nat
  then s_of_Z (Z.of_nat num_total_parts - Z.of_nat j) / s_of_Z (Z.of_nat num_total_parts)
  else s_of_Z 0.

(** [min(EXPLODE_FACTOR * (1 + parts_remaining_factor * 4), MAX_EXPLODE_DISTANCE)] *)
Definition explode_distance (parts_remaining_factor : F) : F :=
  py_min (EXPLODE_FACTOR * (s_of_Z 1 + parts_remaining_factor * s_of_Z 4))
         MAX_EXPLODE_DISTANCE.

(** The amount added to [part.location.z]:
    [EXPLODE_FACTOR * 0.8 * (1 + parts_remaining_factor) * get_object_size(part)] *)
Definition vertical_lift (parts_remaining_factor : F) (part : Part F) : F :=
  EXPLODE_FACTOR * dec 8 10 * (s_of_Z 1 + parts_remaining_factor)
  * get_object_size (Some part).

Definition add_z (d : F) (v : Vec F) : Vec F := mkVec (vx v) (vy v) (vz v + d).
End Explosion.

Section Steps.
Context {F : Type} `{Scalar F} `{Trig F}.
Local Open Scope scalar_scope.

(** The direction in which part [j] is pushed away from the center of the
    assembled parts; [normalize()] acts on the local vector in place. *)
Definition explode_direction (base assembled_center : Vec F) (j : nat) : Vec F :=
  let d := vsub base assembled_center in
  let d :=
    if vlength d <? dec 1 10
    then mkVec (s_cos (s_of_Z (Z.of_nat j) * dec 5 10) * dec 5 10)
               (s_sin (s_of_Z (Z.of_nat j) * dec 5 10) * dec 5 10)
               (dec 1 1)
    else d in
  if EPS <? vlength d then normalized d
  else mkVec (s_of_Z 0) (s_of_Z 0) (s_of_Z 1).

(** The center of the parts assembled so far: the mean of the positions
    of those whose name is a key of [base_positions], the origin when
    there is none. *)
Definition assembled_center (w : World F) : Vec F :=
  let valid_assembled :=
    omap (fun k =>
            match parts w !! k with
            | Some p =>
              match base_positions w !! name p with
              | Some _ => Some p
              | None => None
              end
            | None => None
            end) (active_parts_in_scene w) in
  match valid_assembled with
  | [] => vzero
  | _ :: _ =>
    vdiv (vsum (List.map (part_position w) valid_assembled)) (py_len valid_assembled)
  end.

(** The body of [for j, part in enumerate(parts)] of step [i]. *)
Definition explode_part (i : nat) (center : Vec F) (w : World F) (j : nat) : World F :=
  match parts w !! j with
  | None => w
  | Some part =>
    if is_assembled i j then w
    else
      match base_positions w !! name part with
      | None => w
      | Some a =>
        let base := read w a in
        let direction := explode_direction base center j in
        let factor := parts_remaining_factor (length (parts w)) j in
        let distance := explode_distance factor in
        let offset := vscale direction distance in
        let w1 := set_location j (vadd base offset) w in
        update_location j (add_z (vertical_lift factor part)) w1
      end
  end.

Definition explode_parts (i : nat) (w : World F) : World F :=
  fold_left (explode_part i (assembled_center w)) (seq 0 (length (parts w))) w.

(** The arrow of one new part of the step, from its exploded position to
    its base position; none when the name has no base position, when the
    two are closer than [0.01], or when [create_arrow] gives none.  (The
    destination marker the script adds for framing is not represented.) *)
Definition arrow_for (w : World F) (idx : nat) : option (Arrow F) :=
  match parts w !! idx with
  | None => None
  | Some part =>
    match base_positions w !! name part with
    | None => None
    | Some a =>
      let destination := read w a in
      let start_pos := part_position w part in
      if vlength (vsub start_pos destination) <? dec 1 100 then None
      else create_arrow start_pos destination (Some part)
    end
  end.

(** The entry appended to [step_data]. *)
Definition step_entry (md_parts : list PartInfo) (w : World F)
    (i step_num : nat) (parts_in_this_step : list nat) : StepEntry :=
  let names := omap (fun k => name <$> parts w !! k) parts_in_this_step in
  let step_parts_info :=
    List.filter (fun p_info => existsb (String.eqb (pi_blender_name p_info)) names)
                md_parts in
  let caption_parts :=
    List.map (fun p => (pi_name p ++ " (" ++ pi_number p ++ ")")%string) step_parts_info in
  let image_filename := ("step" ++ zero_padded 2 step_num)%string in
  mkStepEntry (image_filename ++ ".png")%string
              (if (i =? 0)%nat
               then ("Start assembly with: " ++ join ", " caption_parts ++ ".")%string
               else ("Attach " ++ join ", " caption_parts ++ " as shown.")%string)
              (List.map pi_number step_parts_info).

(** Positions at the moment the arrows of step [i] are made: all parts
    reset, then the parts not yet assembled exploded. *)
Definition exploded_world (i : nat) (w : World F) : World F :=
  explode_parts i (reset_all w).

(** One pass of the body of [for i in range(0, num_total_parts, step_size)].
    Visibility flags, framing and rendering do not touch the fields of the
    world and are left out. *)
Definition step_body (md_parts : list PartInfo) (step_size : nat)
    (w : World F) (i : nat) : World F :=
  let num_total_parts := length (parts w) in
  let step_num := (i / step_size)%nat in
  let parts_in_this_step := parts_in_this_step_indices i step_size num_total_parts in
  let w1 := exploded_world i w in
  let current_step_arrows := omap (arrow_for w1) parts_in_this_step in
  let w2 := reset_parts (active_parts_in_scene w) w1 in
  mkWorld (heap w2) (parts w2) (base_positions w2)
          (active_parts_in_scene w2 ++ parts_in_this_step)
          (all_step_arrows w2 ++ current_step_arrows)
          (step_data w2 ++ [step_entry md_parts w2 i step_num parts_in_this_step]).

Definition step_loop (md_parts : list PartInfo) (target_steps : nat) (w : World F)
  : World F :=
  let num_total_parts := length (parts w) in
  let step_size := step_size_for target_steps num_total_parts in
  fold_left (step_body md_parts step_size) (py_range num_total_parts step_size) w.

(** After the loop: all parts back to their base positions, the arrows
    removed, the metadata completed. *)
Definition finish (md_parts : list PartInfo) (w : World F) : World F * Metadata :=
  let w1 := reset_all w in
  (mkWorld (heap w1) (parts w1) (base_positions w1) (active_parts_in_scene w1)
           [] (step_data w1),
   finish_metadata md_parts true (step_data w1)).

(** [main()], from the list returned by [separate_and_get_parts] (the
    part objects and the store holding their locations) to the final
    world and the metadata; [None] where the script exits for lack of
    parts. *)
Definition main_with (target_steps : nat) (store : list (Vec F)) (parts0 : list (Part F))
  : option (World F * Metadata) :=
  match parts0 with
  | [] => None
  | _ :: _ =>
    let w0 := mkWorld store parts0 ∅ [] [] [] in
    let w1 := record_base_positions w0 in
    let '(md_parts, w2) := assign_materials_and_names w1 in
    let w3 := reset_all w2 in
    let w4 := arrange_grid w3 in
    Some (finish md_parts (step_loop md_parts target_steps w4))
  end.

Definition main : list (Vec F) -> list (Part F) -> option (World F * Metadata) :=
  main_with TARGET_STEPS.
End Steps.

(* ===================================================================== *)
(** * Notions of the specification and sample inputs *)
(* ===================================================================== *)

(** The arithmetic mean of a list of reals. *)
Definition mean (xs : list R) : R := (fold_right Rplus 0 xs / INR (length xs))%R.

(** The dimensions that count for the size: those above the threshold. *)
Definition kept_dims (dims : Vec R) : list R :=
  List.filter (fun d => Rltb EPS d) [vx dims; vy dims; vz dims].


Definition vec_of_Z {F} `{Scalar F} (x y z : Z) : Vec F :=
  mkVec (s_of_Z x) (s_of_Z y) (s_of_Z z).

(** A part of dimensions [(4, 4, 4)]. *)
Definition cube4 {F} `{Scalar F} : Part F :=
  mkPart "Cube" 0 (Some (vec_of_Z 4 4 4)).

(** A part of dimensions [(0, 0, 2)]. *)
Definition sliver {F} `{Scalar F} : Part F :=
  mkPart "Sliver" 0 (Some (vec_of_Z 0 0 2)).

(** A part of dimensions [(0, 0, 0)]. *)
Definition speck {F} `{Scalar F} : Part F :=
  mkPart "Speck" 0 (Some (vec_of_Z 0 0 0)).

(** What an object contributes to the framing bounds, as boxes [(lo, hi)]:
    nothing when it is hidden or its bounding box is [None]; its corners in
    world space, each as a point, when it has a bounding box; its position
    plus and minus half its display size when it is an empty without one;
    its position when it is a light or a camera without one. *)
Definition contributions (obj : SceneObj R) : list (Vec R * Vec R) :=
  if hide_viewport obj then []
  else
    match bound_box obj with
    | BoundBoxNone => []
    | Corners c cs =>
      List.map (fun corner => let p := mat_apply (matrix_world obj) corner in (p, p))
               (c :: cs)
    | NoBoundBox =>
      let pos := translation (matrix_world obj) in
      match obj_type obj, empty_display_size obj with
      | EMPTY, Some size =>
        let s := (size * (5 / 10))%R in
        [(mkVec (vx pos - s) (vy pos - s) (vz pos - s),
          mkVec (vx pos + s) (vy pos + s) (vz pos + s))%R]
      | LIGHT, _ | CAMERA, _ => [(pos, pos)]
      | _, _ => []
      end
    end.

(** Everything the valid targets of a call contribute. *)
Definition all_contributions (target_objects : list (option (SceneObj R)))
  : list (Vec R * Vec R) :=
  List.concat (List.map contributions (omap is_valid_target target_objects)).

Definition is_min (xs : list R) (m : R) : Prop :=
  (forall x, In x xs -> (m <= x)%R) /\ In m xs.

Definition is_max (xs : list R) (m : R) : Prop :=
  (forall x, In x xs -> (x <= m)%R) /\ In m xs.

(** [min_coord] and [max_coord] are, coordinate by coordinate, the least
    lower corner and the greatest upper corner of the boxes. *)
Definition bounds_of (boxes : list (Vec R * Vec R)) (min_coord max_coord : Vec R) : Prop :=
  is_min (List.map (fun b => vx (fst b)) boxes) (vx min_coord)
  /\ is_min (List.map (fun b => vy (fst b)) boxes) (vy min_coord)
  /\ is_min (List.map (fun b => vz (fst b)) boxes) (vz min_coord)
  /\ is_max (List.map (fun b => vx (snd b)) boxes) (vx max_coord)
  /\ is_max (List.map (fun b => vy (snd b)) boxes) (vy max_coord)
  /\ is_max (List.map (fun b => vz (snd b)) boxes) (vz max_coord).

(** The unit vector along [(0.8, -0.8, 0.6)]. *)
Definition view_direction : Vec R :=
  mkVec (8 / 10 / sqrt (164 / 100))%R (- (8 / 10) / sqrt (164 / 100))%R
        (6 / 10 / sqrt (164 / 100))%R.

Definition identity_matrix {F} `{Scalar F} : Matrix F :=
  mkMatrix (vec_of_Z 1 0 0) (vec_of_Z 0 1 0) (vec_of_Z 0 0 1) (vec_of_Z 0 0 0).

(** A mesh object in the scene with the box from [(0,0,0)] to [(1,1,1)],
    shown or hidden in the viewport. *)
Definition unit_cube {F} `{Scalar F} (hidden : bool) : SceneObj F :=
  mkSceneObj "Cube" true MESH
    (Corners (vec_of_Z 0 0 0)
             [vec_of_Z 0 0 1; vec_of_Z 0 1 0; vec_of_Z 0 1 1;
              vec_of_Z 1 0 0; vec_of_Z 1 0 1; vec_of_Z 1 1 0; vec_of_Z 1 1 1])
    identity_matrix hidden None.

(** A world with one part, named ["A"], of dimensions [(4, 4, 4)], located
    at [(3, 0, 0)], whose recorded base position is [(1, 2, 3)]. *)
Definition one_part_world {F} `{Scalar F} : World F :=
  mkWorld [vec_of_Z 3 0 0; vec_of_Z 1 2 3]
          [mkPart "A" 0 (Some (vec_of_Z 4 4 4))]
          {["A"%string := 1%nat]} [] [] [].

(** All boxes taken into the running corners, one after the other. *)
Definition extend_all (boxes : list (Vec R * Vec R)) (b : Bounds) : Bounds :=
  fold_left (fun acc box => extend acc (fst box) (snd box)) boxes b.

(** The camera that results when no target gives bounds: the default
    center [(0,0,0)] and size [5.0] are framed. *)
Definition default_view : Vec R :=
  mkVec (0 + vx view_direction * (5 * (15 / 10)))%R
        (0 + vy view_direction * (5 * (15 / 10)))%R
        (0 + vz view_direction * (5 * (15 / 10)))%R.

Section StoreNotions.
Context {F : Type} `{Scalar F}.

(** Part [j] sits at [u]: its location refers to a stored vector of that
    value. *)
Definition placed (w : World F) (j : nat) (u : Vec F) : Prop :=
  exists p, parts w !! j = Some p /\ heap w !! location p = Some u.

(** [w'] comes from [w] by steps that leave the dictionary of base
    positions, the lists kept by the loop, the number of parts, and the
    name and dimensions of each part alone, and only add vectors to the
    store. *)
Definition frame (w w' : World F) : Prop :=
  base_positions w' = base_positions w
  /\ (active_parts_in_scene w' = active_parts_in_scene w
      /\ all_step_arrows w' = all_step_arrows w
      /\ step_data w' = step_data w)
  /\ length (parts w') = length (parts w)
  /\ (forall k p, parts w !! k = Some p ->
        exists p', parts w' !! k = Some p'
                   /\ name p' = name p /\ dimensions p' = dimensions p)
  /\ (exists added, heap w' = (heap w ++ added)%list).
End StoreNotions.

Section ExplosionNotions.
Context {F : Type} `{Scalar F} `{Trig F}.

(** The position given to the part at index [j] by the explosion. *)
Definition exploded_position (num_total_parts j : nat) (base center : Vec F) (part : Part F)
  : Vec F :=
  let factor := parts_remaining_factor num_total_parts j in
  add_z (vertical_lift factor part)
        (vadd base (vscale (explode_direction base center j) (explode_distance factor))).
End ExplosionNotions.

(** [look_at(obj, target)], for an object at [location]: the direction
    handed to [to_track_quat] to set the rotation, or [None] where the
    function returns and leaves the rotation as it is. *)
Definition look_at_direction {F} `{Scalar F} (location target : Vec F) : option (Vec F) :=
  let direction := vsub target location in
  if (vlength direction <? EPS)%sc then None else Some direction.

Section MoreNotions.
Context {F : Type} `{Scalar F} `{Trig F}.

(** The name of part [j] is not a key of [base_positions]. *)
Definition unkeyed (w : World F) (j : nat) : Prop :=
  exists p, parts w !! j = Some p /\ base_positions w !! name p = None.

(** No part's name is a key of [base_positions]. *)
Definition none_keyed (w : World F) : Prop :=
  forall j p, parts w !! j = Some p -> base_positions w !! name p = None.

(** Every part's location refers to a vector of the store. *)
Definition locations_valid (store : list (Vec F)) (ps : list (Part F)) : Prop :=
  forall k p, ps !! k = Some p -> (location p < length store)%nat.

(** No two parts share the vector their locations refer to. *)
Definition locations_distinct (ps : list (Part F)) : Prop :=
  forall i j p q, ps !! i = Some p -> ps !! j = Some q -> location p = location q -> i = j.

(** The vectors of [base_positions] are in the store and none of them is
    the vector a part's location refers to. *)
Definition base_apart (w : World F) : Prop :=
  forall n a, base_positions w !! n = Some a ->
    (a < length (heap w))%nat
    /\ forall k p, parts w !! k = Some p -> location p <> a.

(** Going from [w] to [w'] keeps the dictionary of base positions and the
    value of every vector in it, and keeps those vectors apart from the
    parts' locations. *)
Definition keeps_base (w w' : World F) : Prop :=
  base_apart w ->
  base_apart w'
  /\ base_positions w' = base_positions w
  /\ forall n a, base_positions w !! n = Some a -> heap w' !! a = heap w !! a.

(** The statements of [main] up to the step loop: the entries of
    [metadata['parts']] and the world the loop starts from. *)
Definition before_steps (store : list (Vec F)) (parts0 : list (Part F))
  : list PartInfo * World F :=
  let w0 := mkWorld store parts0 ∅ [] [] [] in
  let w1 := record_base_positions w0 in
  let '(md_parts, w2) := assign_materials_and_names w1 in
  (md_parts, arrange_grid (reset_all w2)).
End MoreNotions.

(** The keys of [PART_COLORS]: the part types that have a colour. *)
Definition PART_TYPES : list string :=
  ["leg"; "seat"; "beam"; "screw"; "part"]%string.

(** [f"P{i+1:03d}"] *)
Definition part_id (i : nat) : string := ("P" ++ zero_padded 3 (i + 1))%string.

(** [f"{part_type.capitalize()} {number}"] *)
Definition part_name_of (part_type : string) (number : nat) : string :=
  (capitalize part_type ++ " " ++ str_of_nat number)%string.

(** A name of the form [assign_materials_and_names] gives to a part. *)
Definition generated_name (n : string) : Prop :=
  exists t c, In t PART_TYPES /\ n = part_name_of t c.

(** What [assign_materials_and_names] has done to the world [w0] once
    the indices [done] have been gone through: the parts at those indices
    carry generated names. *)
Definition renamed {F : Type} (done : list nat) (w0 w : World F) : Prop :=
  base_positions w = base_positions w0
  /\ all_step_arrows w = all_step_arrows w0
  /\ length (parts w) = length (parts w0)
  /\ (forall j p, parts w !! j = Some p -> dimensions p <> None)
  /\ (forall j p, In j done -> parts w !! j = Some p -> generated_name (name p)).

(** What holds of the entries collected by [assign_materials_and_names]
    once the indices [done] have been gone through, [counts] being the
    dictionary [part_counts]. *)
Definition entries_ok (done : list nat) (counts : gmap string nat)
    (infos : list PartInfo) : Prop :=
  NoDup (List.map pi_name infos)
  /\ NoDup (List.map pi_number infos)
  /\ forall info, In info infos ->
       exists c i,
         In (pi_type info) PART_TYPES
         /\ pi_name info = part_name_of (pi_type info) c
         /\ (1 <= c <= default 0 (counts !! pi_type info))%nat
         /\ In i done
         /\ pi_number info = part_id i.

(** A world with one part, named ["B"], at [(3, 0, 0)], and no recorded
    base position. *)
Definition stray_part_world {F} `{Scalar F} : World F :=
  mkWorld [vec_of_Z 3 0 0] [mkPart "B" 0 (Some (vec_of_Z 4 4 4))] ∅ [] [] [].

(* ===================================================================== *)
(** * Properties *)
(* ===================================================================== *)

(** ** Real arithmetic behind the [Scalar] operations *)

Local Open Scope list_scope.
Local Open Scope R_scope.

Lemma Rltb_true (a b : R) : Rltb a b = true <-> a < b.
Proof. unfold Rltb. destruct (Rlt_dec a b); split; intros; try lra; congruence. Qed.

Lemma Rltb_false (a b : R) : Rltb a b = false <-> b <= a.
Proof. unfold Rltb. destruct (Rlt_dec a b); split; intros; try lra; congruence. Qed.

Lemma py_min_R (a b : R) : py_min a b = Rmin a b.
Proof.
  unfold py_min, Rmin; simpl.
  destruct (Rltb b a) eqn:E; destruct (Rle_dec a b) as [L|L]; try reflexivity.
  - apply Rltb_true in E. lra.
  - apply Rltb_false in E. lra.
Qed.

Lemma py_max_R (a b : R) : py_max a b = Rmax a b.
Proof.
  unfold py_max, Rmax; simpl.
  destruct (Rltb a b) eqn:E; destruct (Rle_dec a b) as [L|L]; try reflexivity.
  - apply Rltb_true in E. lra.
  - apply Rltb_false in E. lra.
Qed.

Lemma dec_R (n d : Z) : dec n d = IZR n / IZR d.
Proof. reflexivity. Qed.

(** Case analysis on a comparison of reals, keeping the ordering fact. *)
Ltac case_Rltb a b :=
  let E := fresh "E" in
  destruct (Rltb a b) eqn:E;
  [apply Rltb_true in E | apply Rltb_false in E].

Ltac unfold_consts :=
  unfold ARROW_THICKNESS_RATIO, ARROW_HEAD_SIZE_RATIO, ARROW_MIN_THICKNESS,
    ARROW_MAX_THICKNESS, ARROW_MIN_HEAD_SIZE, ARROW_MAX_HEAD_SIZE,
    ARROW_MIN_LENGTH_FACTOR, EXPLODE_FACTOR, MAX_EXPLODE_DISTANCE,
    CAMERA_DISTANCE_FACTOR, EPS, dec in *; simpl s_of_Z in *; simpl s_div in *.

Lemma vlength_nonneg (v : Vec R) : 0 <= vlength v.
Proof. unfold vlength; simpl. apply sqrt_pos. Qed.

Lemma vlength_sqr (v : Vec R) :
  vlength v * vlength v = vx v * vx v + vy v * vy v + vz v * vz v.
Proof. unfold vlength; simpl. apply sqrt_sqrt. nra. Qed.

(** ** The size estimator *)

Lemma kept_dims_spec (dims : Vec R) (d : R) :
  In d (kept_dims dims) <-> In d [vx dims; vy dims; vz dims] /\ 1 / 1000000 < d.
Proof.
  unfold kept_dims. rewrite filter_In, Rltb_true. unfold_consts. tauto.
Qed.

Lemma get_object_size_dims (n : string) (a : addr) (dims : Vec R) :
  get_object_size (Some (mkPart n a (Some dims))) =
  match kept_dims dims with
  | [] => 1 / 1000000
  | _ :: _ => mean (kept_dims dims)
  end.
Proof.
  unfold get_object_size, kept_dims, mean, py_sum, py_len; simpl.
  unfold_consts.
  destruct (Rltb _ (vx dims)), (Rltb _ (vy dims)), (Rltb _ (vz dims));
    simpl; rewrite <- ?INR_IZR_INZ; cbn [INR]; lra.
Qed.

Lemma get_object_size_pos (obj : option (Part R)) : 0 < get_object_size obj.
Proof.
  destruct obj as [[n a [dims|]]|]; try (unfold get_object_size; simpl; unfold_consts; lra).
  unfold get_object_size, py_sum, py_len; simpl. unfold_consts.
  case_Rltb (1 / 1000000) (vx dims); case_Rltb (1 / 1000000) (vy dims);
    case_Rltb (1 / 1000000) (vz dims); simpl;
    rewrite <- ?INR_IZR_INZ; cbn [INR]; lra.
Qed.

(** C6.  [get_object_size] returns the arithmetic mean of the bounding-box
    dimensions that are left once the degenerate ones are dropped (a
    dimension is dropped when it does not exceed [1e-6], so every dimension
    below that threshold is); the fixed value [1e-6] when all three are
    dropped; the default [1.0] for a missing object or one without
    dimensions; and the result is strictly positive in every case. *)
Theorem get_object_size_mean_of_nondegenerate (obj : option (Part R)) :
  match obj with
  | None => get_object_size obj = 1
  | Some o =>
    match dimensions o with
    | None => get_object_size obj = 1
    | Some dims =>
      (forall d, In d [vx dims; vy dims; vz dims] -> d < 1 / 1000000 ->
                 ~ In d (kept_dims dims))
      /\ (forall d, In d (kept_dims dims) ->
                    In d [vx dims; vy dims; vz dims] /\ 1 / 1000000 < d)
      /\ (kept_dims dims = [] -> get_object_size obj = 1 / 1000000)
      /\ (kept_dims dims <> [] -> get_object_size obj = mean (kept_dims dims))
    end
  end
  /\ 0 < get_object_size obj.
Proof.
  split; [|apply get_object_size_pos].
  destruct obj as [[n a [dims|]]|];
    try (unfold get_object_size; simpl; unfold_consts; lra).
  simpl dimensions. split; [|split; [|split]].
  - intros d _ Hlt Hin. apply kept_dims_spec in Hin. lra.
  - intros d Hin. apply kept_dims_spec; assumption.
  - intros E. rewrite get_object_size_dims, E. reflexivity.
  - intros E. rewrite get_object_size_dims.
    destruct (kept_dims dims); [congruence | reflexivity].
Qed.

(** ** The arrow generator *)

Lemma vec_eq (a b : Vec R) :
  vx a = vx b -> vy a = vy b -> vz a = vz b -> a = b.
Proof. destruct a, b; simpl; intros; subst; reflexivity. Qed.

Lemma normalized_R (a : Vec R) :
  0 < vlength a -> normalized a = vdiv a (vlength a).
Proof.
  intros Hpos. unfold normalized.
  change (s_of_Z 0 <? vlength a)%sc with (Rltb 0 (vlength a)).
  apply Rltb_true in Hpos. rewrite Hpos. reflexivity.
Qed.

(** Re-extending the normalised direction by the height it already has
    gives back the end point the function was called with. *)
Lemma readjusted_end (start end_ : Vec R) :
  0 < vlength (vsub end_ start) ->
  vadd start (vscale (normalized (vsub end_ start)) (vlength (vsub end_ start))) = end_.
Proof.
  intros Hpos. rewrite normalized_R by exact Hpos.
  set (h := vlength (vsub end_ start)) in *.
  apply vec_eq; simpl; field; lra.
Qed.

Lemma vsub_vadd (a b : Vec R) : vsub (vadd a (vsub b a)) a = vsub b a.
Proof. apply vec_eq; simpl; ring. Qed.

(** Whatever the minimum length, the segment [adjust_segment] continues
    with is the one it was given. *)
Lemma adjust_segment_same (start end_ : Vec R) (min_arrow_length : R) :
  1 / 100 <= vlength (vsub end_ start) ->
  adjust_segment start end_ (vsub end_ start) (vlength (vsub end_ start)) min_arrow_length
  = Some (end_, vsub end_ start, vlength (vsub end_ start)).
Proof.
  intros Hh. unfold adjust_segment.
  change (@s_ltb R Scalar_R) with Rltb.
  destruct (Rltb (vlength (vsub end_ start)) min_arrow_length); [|reflexivity].
  assert (E : Rltb EPS (vlength (vsub end_ start)) = true)
    by (apply Rltb_true; unfold_consts; lra).
  rewrite E, readjusted_end by lra.
  reflexivity.
Qed.

(** The result of [create_arrow] on a segment of length at least [0.01]. *)
Lemma create_arrow_some (start end_ : Vec R) (part : option (Part R)) :
  let h := vlength (vsub end_ start) in
  let size := get_object_size part in
  1 / 100 <= h ->
  create_arrow start end_ part =
  Some {| arrow_end := end_;
          arrow_height := h;
          shaft_radius := Rmax (2 / 100) (Rmin (15 / 100) (size * (5 / 100)));
          shaft_depth := h * (75 / 100);
          shaft_location := vadd start (vscale (vsub end_ start) (h * (375 / 1000)));
          head_radius :=
            Rmin (Rmax (6 / 100) (Rmin (4 / 10) (size * (15 / 100))))
                 (h * (3 / 10) * (15 / 10));
          head_depth := h * (3 / 10);
          head_location := vadd start (vscale (vsub end_ start) (h * (85 / 100))) |}.
Proof.
  intros h size Hh. unfold create_arrow.
  change (@s_ltb R Scalar_R) with Rltb.
  assert (E : Rltb (vlength (vsub end_ start)) (dec 1 100) = false)
    by (apply Rltb_false; unfold_consts; fold h; lra).
  rewrite E, adjust_segment_same by exact Hh.
  rewrite !py_max_R, !py_min_R. reflexivity.
Qed.

(** C1 (as the code behaves).  For every call whose segment is at least
    [0.01] long but shorter than the minimum length [size(part) * 0.5],
    [create_arrow] returns an arrow whose end point is the end point it was
    given and whose length is the original length: the segment is not
    extended, and its length differs from the minimum length. *)
Theorem create_arrow_short_segment_not_extended
    (start end_ : Vec R) (part : option (Part R)) :
  let h := vlength (vsub end_ start) in
  let min_length := get_object_size part * (5 / 10) in
  1 / 100 <= h -> h < min_length ->
  exists arrow,
    create_arrow start end_ part = Some arrow
    /\ arrow_end arrow = end_
    /\ arrow_height arrow = h
    /\ vlength (vsub (arrow_end arrow) start) <> min_length.
Proof.
  intros h min_length Hlo Hshort.
  eexists. split; [apply create_arrow_some; exact Hlo|].
  cbn [arrow_end arrow_height].
  split; [reflexivity|]. split; [reflexivity|].
  subst h min_length. lra.
Qed.

Lemma vlength_unit_z :
  vlength (vsub (vec_of_Z 0 0 1) (vec_of_Z 0 0 0 : Vec R)) = 1.
Proof.
  unfold vlength, vsub, vec_of_Z; simpl.
  replace ((0 - 0) * (0 - 0) + (0 - 0) * (0 - 0) + (1 - 0) * (1 - 0)) with 1 by ring.
  apply sqrt_1.
Qed.

Lemma get_object_size_cube4 : get_object_size (Some (cube4 : Part R)) = 4.
Proof.
  unfold get_object_size, cube4, vec_of_Z, py_sum, py_len; simpl. unfold_consts.
  case_Rltb (1 / 1000000) 4; [|lra].
  simpl. rewrite <- ?INR_IZR_INZ; cbn [INR]. lra.
Qed.

(** The theorem above at start [(0,0,0)], end [(0,0,1)] and a part of size
    [4]: the minimum length is [2], the arrow stays [1] long. *)
Lemma create_arrow_short_segment_witness :
  exists arrow,
    create_arrow (vec_of_Z 0 0 0) (vec_of_Z 0 0 1) (Some (cube4 : Part R)) = Some arrow
    /\ arrow_end arrow = vec_of_Z 0 0 1
    /\ arrow_height arrow = vlength (vsub (vec_of_Z 0 0 1) (vec_of_Z 0 0 0 : Vec R))
    /\ vlength (vsub (arrow_end arrow) (vec_of_Z 0 0 0))
       <> get_object_size (Some (cube4 : Part R)) * (5 / 10).
Proof.
  apply (create_arrow_short_segment_not_extended
           (vec_of_Z 0 0 0) (vec_of_Z 0 0 1) (Some cube4)).
  - rewrite vlength_unit_z. lra.
  - rewrite vlength_unit_z, get_object_size_cube4. lra.
Defined.

(** The same call at binary64: the minimum length is [2.0], the arrow
    returned ends at [(0,0,1)] and is [1.0] long. *)
Example create_arrow_short_segment_binary64 :
  (get_object_size (Some (cube4 : Part float)) * ARROW_MIN_LENGTH_FACTOR)%sc = 2%float
  /\ option_map (fun a => (arrow_end a, arrow_height a))
       (create_arrow (vec_of_Z 0 0 0) (vec_of_Z 0 0 1) (Some (cube4 : Part float)))
     = Some (vec_of_Z 0 0 1, 1%float).
Proof. split; vm_compute; reflexivity. Qed.




(** ** The sliver scenario *)

Lemma kept_dims_sliver : kept_dims (vec_of_Z 0 0 2) = [2].
Proof.
  unfold kept_dims, vec_of_Z; simpl. unfold_consts.
  case_Rltb (1 / 1000000) 0; [lra|].
  case_Rltb (1 / 1000000) 2; [reflexivity|lra].
Qed.

Lemma get_object_size_sliver : get_object_size (Some (sliver : Part R)) = 2.
Proof.
  unfold sliver. rewrite get_object_size_dims, kept_dims_sliver.
  unfold mean; simpl. lra.
Qed.

(** C2 (as stated, refuted).  For the bounding box [(0, 0, 2)] the size is
    [2], in exact arithmetic and at binary64: it is not within [0.001] of
    [1e-6], let alone approximately [1e-6]. *)
Lemma sliver_size_not_epsilon :
  ~ (Rabs (get_object_size (Some (sliver : Part R)) - 1 / 1000000) <= 1 / 1000)
  /\ get_object_size (Some (sliver : Part float)) = 2%float.
Proof.
  split.
  - rewrite get_object_size_sliver. intros Habs.
    rewrite Rabs_pos_eq in Habs; lra.
  - vm_compute. reflexivity.
Qed.

(** The size is [1e-6] exactly for an object whose three dimensions are
    all degenerate. *)
Lemma get_object_size_epsilon (obj : option (Part R)) :
  get_object_size obj = 1 / 1000000
  <-> exists o dims,
        obj = Some o /\ dimensions o = Some dims
        /\ kept_dims dims = []
        /\ vx dims <= 1 / 1000000 /\ vy dims <= 1 / 1000000 /\ vz dims <= 1 / 1000000.
Proof.
  split.
  - destruct obj as [[n a [dims|]]|];
      try (unfold get_object_size; simpl; unfold_consts; intros E; exfalso; lra).
    intros Hsize. exists (mkPart n a (Some dims)), dims.
    split; [reflexivity|]. split; [reflexivity|].
    revert Hsize.
    unfold get_object_size, kept_dims, py_sum, py_len; simpl. unfold_consts.
    case_Rltb (1 / 1000000) (vx dims); case_Rltb (1 / 1000000) (vy dims);
      case_Rltb (1 / 1000000) (vz dims); simpl;
      rewrite <- ?INR_IZR_INZ; cbn [INR]; intros Hsize;
      first [exfalso; lra | repeat split; first [reflexivity | lra]].
  - intros (o & dims & -> & Ed & Ek & _). destruct o as [n a d]. simpl in Ed. subst d.
    rewrite get_object_size_dims, Ek. reflexivity.
Qed.

(** C2 (amended).  For the bounding box [(0, 0, 2)] only the third
    dimension counts and the size is that dimension, [2]: not zero, and
    at binary64 a number whose reciprocal is [0.5], not a NaN.  The size
    is [1e-6] only for an object whose three dimensions are all
    degenerate (none exceeds [1e-6]), and it is [1e-6] for every such
    object. *)
Theorem sliver_size_and_epsilon_rule :
  kept_dims (vec_of_Z 0 0 2) = [2]
  /\ get_object_size (Some (sliver : Part R)) = 2
  /\ get_object_size (Some (sliver : Part R)) <> 0
  /\ get_object_size (Some (sliver : Part float)) = 2%float
  /\ (s_of_Z 1 / get_object_size (Some (sliver : Part float)))%sc = 0.5%float
  /\ PrimFloat.is_nan (s_of_Z 1 / get_object_size (Some (sliver : Part float)))%sc = false
  /\ (forall obj : option (Part R),
        get_object_size obj = 1 / 1000000
        <-> exists o dims,
              obj = Some o /\ dimensions o = Some dims
              /\ kept_dims dims = []
              /\ vx dims <= 1 / 1000000 /\ vy dims <= 1 / 1000000
              /\ vz dims <= 1 / 1000000).
Proof.
  split; [exact kept_dims_sliver|].
  split; [exact get_object_size_sliver|].
  split; [rewrite get_object_size_sliver; lra|].
  split; [vm_compute; reflexivity|].
  split; [vm_compute; reflexivity|].
  split; [vm_compute; reflexivity|].
  exact get_object_size_epsilon.
Qed.

(** The epsilon rule at a part of dimensions [(0, 0, 0)]. *)
Lemma sliver_size_and_epsilon_rule_witness :
  get_object_size (Some (speck : Part R)) = 1 / 1000000.
Proof.
  apply (proj2 (proj2 (proj2 (proj2 (proj2 (proj2 sliver_size_and_epsilon_rule)))))
               (Some (speck : Part R))).
  exists speck, (vec_of_Z 0 0 0). unfold speck, kept_dims, vec_of_Z. simpl.
  unfold_consts.
  case_Rltb (1 / 1000000) 0; [lra|].
  repeat split; first [reflexivity | lra].
Defined.

(** ** The camera framer *)

Lemma is_min_single (x : R) : is_min [x] x.
Proof. split; [intros y [<-|[]]; lra | left; reflexivity]. Qed.

Lemma is_max_single (x : R) : is_max [x] x.
Proof. split; [intros y [<-|[]]; lra | left; reflexivity]. Qed.

Lemma is_min_snoc (xs : list R) (m x : R) :
  is_min xs m -> is_min (xs ++ [x]) (Rmin m x).
Proof.
  intros [Hle Hin]. split.
  - intros y Hy. apply in_app_or in Hy as [Hy|[<-|[]]].
    + specialize (Hle y Hy). pose proof (Rmin_l m x). lra.
    + apply Rmin_r.
  - apply in_or_app. unfold Rmin. destruct (Rle_dec m x); [left; exact Hin|right; left; reflexivity].
Qed.

Lemma is_max_snoc (xs : list R) (m x : R) :
  is_max xs m -> is_max (xs ++ [x]) (Rmax m x).
Proof.
  intros [Hle Hin]. split.
  - intros y Hy. apply in_app_or in Hy as [Hy|[<-|[]]].
    + specialize (Hle y Hy). pose proof (Rmax_l m x). lra.
    + apply Rmax_r.
  - apply in_or_app. unfold Rmax. destruct (Rle_dec m x); [right; left; reflexivity|left; exact Hin].
Qed.


Lemma extend_all_bounds (boxes seen : list (Vec R * Vec R)) (lo hi : Vec R) :
  bounds_of seen lo hi ->
  exists lo' hi',
    extend_all boxes (Some (lo, hi)) = Some (lo', hi')
    /\ bounds_of (seen ++ boxes) lo' hi'.
Proof.
  revert seen lo hi. induction boxes as [|[l h] boxes IH]; intros seen lo hi Hb.
  - exists lo, hi. rewrite app_nil_r. split; [reflexivity|exact Hb].
  - simpl. rewrite !py_min_R, !py_max_R.
    destruct Hb as (H1 & H2 & H3 & H4 & H5 & H6).
    edestruct (IH (seen ++ [(l, h)])) as (lo' & hi' & E & Hb'); [|
      exists lo', hi'; split; [exact E|];
      rewrite <- app_assoc in Hb'; exact Hb'].
    unfold bounds_of. rewrite !map_app. simpl.
    repeat split; first [apply is_min_snoc | apply is_max_snoc]; assumption.
Qed.

Lemma extend_all_none (boxes : list (Vec R * Vec R)) :
  boxes <> [] ->
  exists lo hi, extend_all boxes None = Some (lo, hi) /\ bounds_of boxes lo hi.
Proof.
  destruct boxes as [|[l h] boxes]; [congruence|]. intros _. simpl.
  apply (extend_all_bounds boxes [(l, h)] l h).
  unfold bounds_of; simpl.
  repeat split; first [apply is_min_single | apply is_max_single].
Qed.

Lemma fold_left_map_boxes (f : Vec R -> Vec R) (cs : list (Vec R)) (b : Bounds) :
  fold_left (fun acc corner => extend acc corner corner) (List.map f cs) b
  = extend_all (List.map (fun corner => (f corner, f corner)) cs) b.
Proof.
  revert b. induction cs as [|c cs IH]; intros b; [reflexivity|].
  simpl. apply IH.
Qed.

Lemma accumulate_contributions (b : Bounds) (obj : SceneObj R) :
  accumulate b obj = extend_all (contributions obj) b.
Proof.
  unfold accumulate, contributions.
  destruct (bound_box obj) as [| |c cs].
  - destruct (obj_type obj), (empty_display_size obj), (hide_viewport obj);
      reflexivity.
  - destruct (hide_viewport obj); reflexivity.
  - destruct (hide_viewport obj); [reflexivity|].
    apply (fold_left_map_boxes (mat_apply (matrix_world obj)) (c :: cs)).
Qed.

Lemma fold_accumulate (objs : list (SceneObj R)) (b : Bounds) :
  fold_left accumulate objs b = extend_all (List.concat (List.map contributions objs)) b.
Proof.
  revert b. induction objs as [|o objs IH]; intros b; [reflexivity|].
  simpl. rewrite IH, accumulate_contributions.
  unfold extend_all. rewrite fold_left_app. reflexivity.
Qed.

Lemma vlength_offset : vlength (CAMERA_OFFSET_DIRECTION : Vec R) = sqrt (164 / 100).
Proof.
  unfold vlength, CAMERA_OFFSET_DIRECTION; simpl. unfold_consts.
  f_equal. lra.
Qed.

Lemma sqrt_164_pos : 0 < sqrt (164 / 100).
Proof. apply sqrt_lt_R0. lra. Qed.

Lemma normalized_offset : normalized (CAMERA_OFFSET_DIRECTION : Vec R) = view_direction.
Proof.
  rewrite normalized_R by (rewrite vlength_offset; exact sqrt_164_pos).
  unfold vdiv. rewrite vlength_offset.
  unfold CAMERA_OFFSET_DIRECTION, view_direction; simpl. unfold_consts.
  reflexivity.
Qed.

Lemma valid_targets_nonempty (target_objects : list (option (SceneObj R))) :
  all_contributions target_objects <> [] -> omap is_valid_target target_objects <> [].
Proof.
  unfold all_contributions. destruct (omap is_valid_target target_objects); [|discriminate].
  simpl. congruence.
Qed.

(** C8.  When the scene has a camera and the valid targets contribute at
    least one box, [frame_objects] works from the coordinate-wise minimum
    and maximum corners [lo] and [hi] of all contributed boxes: the center
    is their midpoint, the size is the length of [hi - lo] but at least
    [0.5], the distance is [1.5] times the size, and the camera is put at
    the center plus the distance along the unit vector of [(0.8, -0.8, 0.6)],
    a direction that does not depend on the call. *)
Theorem frame_objects_framing (camera : Vec R) (target_objects : list (option (SceneObj R))) :
  all_contributions target_objects <> [] ->
  exists lo hi,
    bounds_of (all_contributions target_objects) lo hi
    /\ let center :=
         mkVec ((vx lo + vx hi) / 2) ((vy lo + vy hi) / 2) ((vz lo + vz hi) / 2) in
       let size :=
         Rmax (sqrt ((vx hi - vx lo) * (vx hi - vx lo)
                     + (vy hi - vy lo) * (vy hi - vy lo)
                     + (vz hi - vz lo) * (vz hi - vz lo)))
              (5 / 10) in
       let distance := size * (15 / 10) in
       frame_objects (Some camera) target_objects
       = (Some (mkVec (vx center + vx view_direction * distance)
                      (vy center + vy view_direction * distance)
                      (vz center + vz view_direction * distance)),
          [InfoFramed center size distance]).
Proof.
  intros Hne.
  destruct (extend_all_none _ Hne) as (lo & hi & E & Hb).
  exists lo, hi. split; [exact Hb|].
  pose proof (valid_targets_nonempty _ Hne) as Hvalid.
  unfold frame_objects. unfold all_contributions in E.
  destruct (omap is_valid_target target_objects) as [|o objs] eqn:Ev; [congruence|].
  rewrite fold_accumulate, E.
  rewrite py_max_R, normalized_offset.
  assert (Ec : vdiv (vadd lo hi) (dec 2 1)
               = mkVec ((vx lo + vx hi) / 2) ((vy lo + vy hi) / 2) ((vz lo + vz hi) / 2)).
  { apply vec_eq; simpl; unfold_consts; lra. }
  rewrite Ec. unfold vadd, vscale; simpl. unfold_consts.
  reflexivity.
Qed.

Lemma frame_objects_framing_witness :
  exists lo hi,
    bounds_of (all_contributions [Some (unit_cube false)]) lo hi
    /\ let center :=
         mkVec ((vx lo + vx hi) / 2) ((vy lo + vy hi) / 2) ((vz lo + vz hi) / 2) in
       let size :=
         Rmax (sqrt ((vx hi - vx lo) * (vx hi - vx lo)
                     + (vy hi - vy lo) * (vy hi - vy lo)
                     + (vz hi - vz lo) * (vz hi - vz lo)))
              (5 / 10) in
       let distance := size * (15 / 10) in
       frame_objects (Some (vec_of_Z 7 7 7)) [Some (unit_cube false)]
       = (Some (mkVec (vx center + vx view_direction * distance)
                      (vy center + vy view_direction * distance)
                      (vz center + vz view_direction * distance)),
          [InfoFramed center size distance]).
Proof.
  apply (frame_objects_framing (vec_of_Z 7 7 7) [Some (unit_cube false)]).
  simpl. discriminate.
Defined.


Lemma frame_objects_no_bounds (camera : Vec R) (target_objects : list (option (SceneObj R))) :
  omap is_valid_target target_objects <> [] ->
  all_contributions target_objects = [] ->
  frame_objects (Some camera) target_objects
  = (Some default_view, [WarnNoBounds; InfoFramed vzero 5 (5 * (15 / 10))]).
Proof.
  intros Hvalid Hnone. unfold frame_objects. unfold all_contributions in Hnone.
  destruct (omap is_valid_target target_objects) as [|o objs] eqn:Ev; [congruence|].
  rewrite fold_accumulate, Hnone. simpl extend_all. cbv iota beta.
  rewrite normalized_offset.
  unfold default_view, vadd, vscale, vzero; simpl. unfold_consts.
  repeat f_equal; lra.
Qed.

Lemma default_view_y_negative : vy default_view < 0.
Proof.
  unfold default_view, view_direction; simpl. unfold Rdiv.
  pose proof (Rinv_0_lt_compat _ sqrt_164_pos) as Hinv.
  nra.
Qed.

(** C9 (as stated, refuted).  A single target that is in the scene but
    hidden in the viewport gives no bounds, and yet the camera, which was
    at [(7,7,7)], is moved: the call is not a no-op.  At binary64 too the
    camera ends up with a first coordinate below [5]. *)
Lemma frame_objects_moves_camera_without_bounds :
  all_contributions [Some (unit_cube true)] = []
  /\ fst (frame_objects (Some (vec_of_Z 7 7 7)) [Some (unit_cube true : SceneObj R)])
     <> Some (vec_of_Z 7 7 7)
  /\ option_map (fun c => (vx c <? s_of_Z 5)%sc)
       (fst (frame_objects (Some (vec_of_Z 7 7 7)) [Some (unit_cube true : SceneObj float)]))
     = Some true.
Proof.
  split; [reflexivity|]. split; [|vm_compute; reflexivity].
  rewrite frame_objects_no_bounds by (simpl; first [discriminate | reflexivity]).
  simpl fst. intros Heq.
  assert (H7 : vy default_view = 7).
  { change 7 with (vy (vec_of_Z 7 7 7 : Vec R)). congruence. }
  pose proof default_view_y_negative as Hneg. lra.
Qed.

(** C9 (amended).  [frame_objects] never fails, and
    - with no valid target it leaves the camera as it is and logs a warning;
    - with valid targets but no camera in the scene it changes nothing and
      logs an error;
    - with valid targets and a camera, when no target gives bounds, it logs
      a warning and frames the default center [(0,0,0)] with size [5.0]:
      the camera is moved to [7.5] along the viewing direction, wherever it
      was before. *)
Theorem frame_objects_soft_failure
    (camera : option (Vec R)) (target_objects : list (option (SceneObj R))) :
  (omap is_valid_target target_objects = [] ->
   frame_objects camera target_objects = (camera, [WarnNoValidTargets]))
  /\ (omap is_valid_target target_objects <> [] -> camera = None ->
      frame_objects camera target_objects = (None, [ErrorNoCamera]))
  /\ (omap is_valid_target target_objects <> [] ->
      all_contributions target_objects = [] ->
      forall c, camera = Some c ->
      frame_objects camera target_objects
      = (Some default_view, [WarnNoBounds; InfoFramed vzero 5 (5 * (15 / 10))])).
Proof.
  split; [|split].
  - intros E. unfold frame_objects. rewrite E. reflexivity.
  - intros Hne ->. unfold frame_objects.
    destruct (omap is_valid_target target_objects); [congruence|reflexivity].
  - intros Hne Hnone c ->. apply frame_objects_no_bounds; assumption.
Qed.

Lemma frame_objects_soft_failure_witness :
  frame_objects (Some (vec_of_Z 7 7 7)) ([] : list (option (SceneObj R)))
  = (Some (vec_of_Z 7 7 7), [WarnNoValidTargets])
  /\ frame_objects None [Some (unit_cube true : SceneObj R)] = (None, [ErrorNoCamera])
  /\ frame_objects (Some (vec_of_Z 7 7 7)) [Some (unit_cube true : SceneObj R)]
     = (Some default_view, [WarnNoBounds; InfoFramed vzero 5 (5 * (15 / 10))]).
Proof.
  split; [|split].
  - apply (proj1 (frame_objects_soft_failure (Some (vec_of_Z 7 7 7)) [])). reflexivity.
  - apply (proj1 (proj2 (frame_objects_soft_failure None [Some (unit_cube true)]))).
    + simpl; discriminate.
    + reflexivity.
  - apply (proj2 (proj2 (frame_objects_soft_failure
                           (Some (vec_of_Z 7 7 7)) [Some (unit_cube true)]))
             ltac:(simpl; discriminate) eq_refl (vec_of_Z 7 7 7) eq_refl).
Defined.

(** ** Step partitioning *)

Local Close Scope R_scope.
Local Open Scope nat_scope.

Lemma ceil_div_0 (b : nat) : 1 <= b -> ceil_div 0 b = 0.
Proof. intros Hb. unfold ceil_div. apply Nat.div_small. lia. Qed.

Lemma ceil_div_pos (a b : nat) :
  1 <= a -> 1 <= b -> ceil_div a b = S ((a - 1) / b).
Proof.
  intros Ha Hb. unfold ceil_div.
  replace (a + b - 1) with ((a - 1) + 1 * b) by lia.
  rewrite Nat.div_add by lia. lia.
Qed.

Lemma ceil_div_step (a b : nat) :
  1 <= a -> 1 <= b -> ceil_div a b = S (ceil_div (a - b) b).
Proof.
  intros Ha Hb. rewrite ceil_div_pos by assumption. f_equal.
  destruct (le_lt_dec b a) as [Hle|Hlt].
  - unfold ceil_div. f_equal. lia.
  - replace (a - b) with 0 by lia. rewrite ceil_div_0 by assumption.
    apply Nat.div_small. lia.
Qed.

(** [ceil_div a b] is the ceiling of [a / b]: the least [k] with
    [a <= k * b]. *)
Lemma ceil_div_spec (a b : nat) :
  1 <= b ->
  a <= ceil_div a b * b /\ (forall k, a <= k * b -> ceil_div a b <= k).
Proof.
  intros Hb. destruct (Nat.eq_dec a 0) as [->|Ha].
  - rewrite ceil_div_0 by assumption. split; [lia|intros; lia].
  - rewrite ceil_div_pos by lia.
    pose proof (Nat.div_mod_eq (a - 1) b) as Hdm.
    pose proof (Nat.mod_upper_bound (a - 1) b ltac:(lia)) as Hub.
    split; [nia|].
    intros k Hk.
    assert (Hlt : (a - 1) / b < k); [|lia].
    apply Nat.Div0.div_lt_upper_bound. nia.
Qed.

(** The loop variable takes the values [i, i + s, i + 2 s, ...] below
    [stop], [ceil ((stop - i) / s)] of them. *)
Lemma range_from_multiples (fuel i stop s : nat) :
  1 <= s -> stop - i <= fuel ->
  range_from fuel i stop s
  = List.map (fun k => i + k * s) (seq 0 (ceil_div (stop - i) s)).
Proof.
  intros Hs. revert i. induction fuel as [|fuel IH]; intros i Hfuel.
  - replace (stop - i) with 0 by lia. rewrite ceil_div_0 by assumption. reflexivity.
  - simpl. destruct (i <? stop) eqn:E.
    + apply Nat.ltb_lt in E.
      rewrite (ceil_div_step (stop - i) s) by lia.
      rewrite IH by lia.
      replace (stop - i - s) with (stop - (i + s)) by lia.
      simpl. f_equal; [lia|].
      rewrite <- seq_shift, map_map. apply map_ext. intros k. lia.
    + apply Nat.ltb_ge in E.
      replace (stop - i) with 0 by lia. rewrite ceil_div_0 by assumption. reflexivity.
Qed.

(** The slices of consecutive steps, laid end to end, are the indices from
    [i] up to [stop], each once and in order. *)
Lemma range_from_slices (fuel i stop s : nat) :
  1 <= s -> stop - i <= fuel ->
  List.concat (List.map (fun i => parts_in_this_step_indices i s stop)
                        (range_from fuel i stop s))
  = seq i (stop - i).
Proof.
  intros Hs. revert i. induction fuel as [|fuel IH]; intros i Hfuel.
  - replace (stop - i) with 0 by lia. reflexivity.
  - simpl. destruct (i <? stop) eqn:E.
    + apply Nat.ltb_lt in E. simpl. rewrite IH by lia.
      unfold parts_in_this_step_indices.
      destruct (le_lt_dec stop (i + s)) as [Hend|Hmid].
      * rewrite Nat.min_r by lia.
        replace (stop - (i + s)) with 0 by lia. simpl. apply app_nil_r.
      * rewrite Nat.min_l by lia.
        replace (i + s - i) with s by lia.
        replace (stop - i) with (s + (stop - (i + s))) by lia.
        rewrite seq_app. reflexivity.
    + apply Nat.ltb_ge in E. replace (stop - i) with 0 by lia. reflexivity.
Qed.

Lemma step_size_for_ceil (target_steps total_parts : nat) :
  1 <= total_parts -> 1 <= target_steps ->
  step_size_for target_steps total_parts = ceil_div total_parts target_steps
  /\ 1 <= ceil_div total_parts target_steps.
Proof.
  intros Hn Ht. unfold step_size_for.
  assert (E1 : (0 <? target_steps) = true) by (apply Nat.ltb_lt; lia).
  assert (E2 : (0 <? total_parts) = true) by (apply Nat.ltb_lt; lia).
  rewrite E1, E2. simpl.
  rewrite (ceil_div_pos total_parts target_steps) by assumption.
  split; lia.
Qed.

(** ** The store: what an assignment to a location changes *)

Section StoreFacts.
Context {F : Type} `{Scalar F}.



Lemma frame_refl (w : World F) : frame w w.
Proof.
  repeat split; try reflexivity.
  - intros k p Hk. exists p. auto.
  - exists []. symmetry. apply app_nil_r.
Qed.

Lemma frame_trans (w1 w2 w3 : World F) : frame w1 w2 -> frame w2 w3 -> frame w1 w3.
Proof.
  intros (B1 & (A1 & R1 & S1) & L1 & P1 & [e1 H1])
         (B2 & (A2 & R2 & S2) & L2 & P2 & [e2 H2]).
  repeat split; try congruence.
  - intros k p Hk. destruct (P1 k p Hk) as (p' & Hk' & N' & D').
    destruct (P2 k p' Hk') as (p'' & Hk'' & N'' & D'').
    exists p''. repeat split; congruence.
  - exists (e1 ++ e2). rewrite H2, H1. symmetry. apply app_assoc.
Qed.

Lemma frame_read (w w' : World F) (a : addr) :
  frame w w' -> a < length (heap w) -> read w' a = read w a.
Proof.
  intros (_ & _ & _ & _ & [e He]) Ha. unfold read.
  rewrite He, lookup_app_l by exact Ha. reflexivity.
Qed.

Lemma frame_heap_length (w w' : World F) :
  frame w w' -> length (heap w) <= length (heap w').
Proof. intros (_ & _ & _ & _ & [e He]). rewrite He, length_app. lia. Qed.

Lemma frame_set_location (k : nat) (v : Vec F) (w : World F) :
  frame w (set_location k v w).
Proof.
  unfold set_location. repeat split; simpl.
  - apply length_alter.
  - intros j p Hj. destruct (decide (k = j)) as [->|Hne].
    + rewrite list_lookup_alter_eq, Hj. simpl. eexists. repeat split.
    + rewrite list_lookup_alter_ne by exact Hne. exists p. auto.
  - exists [v]. reflexivity.
Qed.

Lemma placed_set_location (k : nat) (v : Vec F) (w : World F) :
  k < length (parts w) -> placed (set_location k v w) k v.
Proof.
  intros Hk. destruct (lookup_lt_is_Some_2 _ _ Hk) as [p Hp].
  unfold placed, set_location; simpl.
  rewrite list_lookup_alter_eq, Hp. simpl. eexists. split; [reflexivity|].
  simpl. rewrite lookup_app_r by lia. rewrite Nat.sub_diag. reflexivity.
Qed.

Lemma placed_set_location_other (k j : nat) (v u : Vec F) (w : World F) :
  k <> j -> placed w j u -> placed (set_location k v w) j u.
Proof.
  intros Hne (p & Hp & Hu). exists p. unfold set_location; simpl.
  rewrite list_lookup_alter_ne by exact Hne. split; [exact Hp|].
  apply lookup_app_l_Some. exact Hu.
Qed.

Lemma placed_position (w : World F) (j : nat) (u : Vec F) :
  placed w j u -> position_at w j = Some u.
Proof.
  intros (p & Hp & Hu). unfold position_at, part_position, read.
  rewrite Hp. simpl. rewrite Hu. reflexivity.
Qed.

(** An update in place right after the assignment amounts to assigning
    the updated vector. *)
Lemma update_after_set (k : nat) (v : Vec F) (f : Vec F -> Vec F) (w : World F) :
  k < length (parts w) ->
  update_location k f (set_location k v w) = set_location k (f v) w.
Proof.
  intros Hk. destruct (lookup_lt_is_Some_2 _ _ Hk) as [p Hp].
  unfold update_location.
  assert (E : parts (set_location k v w) !! k
              = Some (mkPart (name p) (length (heap w)) (dimensions p))).
  { unfold set_location; simpl. rewrite list_lookup_alter_eq, Hp. reflexivity. }
  rewrite E. unfold set_location; simpl. f_equal.
  rewrite alter_app_r_alt by lia.
  rewrite Nat.sub_diag. reflexivity.
Qed.

(** Loops whose body either does nothing or assigns the location of the
    part it is at. *)
Section Loops.
Variable g : World F -> nat -> World F.
Hypothesis g_assigns :
  forall w k, g w k = w \/ (k < length (parts w) /\ exists v, g w k = set_location k v w).

Lemma loop_frame (ks : list nat) (w : World F) : frame w (fold_left g ks w).
Proof using g_assigns.
  revert w. induction ks as [|k ks IH]; intros w; [apply frame_refl|].
  simpl. eapply frame_trans; [|apply IH].
  destruct (g_assigns w k) as [->|(_ & v & ->)];
    [apply frame_refl | apply frame_set_location].
Qed.

Lemma loop_placed (ks : list nat) (w : World F) (j : nat) (u : Vec F) :
  ~ In j ks -> placed w j u -> placed (fold_left g ks w) j u.
Proof using g_assigns.
  revert w. induction ks as [|k ks IH]; intros w Hnot Hp; [exact Hp|].
  simpl. apply IH; [intros Hin; apply Hnot; right; exact Hin|].
  destruct (g_assigns w k) as [->|(_ & v & ->)]; [exact Hp|].
  apply placed_set_location_other; [|exact Hp].
  intros ->. apply Hnot. left. reflexivity.
Qed.
End Loops.
End StoreFacts.

(** ** Resetting and exploding *)

Section StepFacts.
Context {F : Type} `{Scalar F} `{Trig F}.

Lemma reset_part_assigns (w : World F) (k : nat) :
  reset_part w k = w
  \/ (k < length (parts w) /\ exists v, reset_part w k = set_location k v w).
Proof.
  unfold reset_part. destruct (parts w !! k) as [p|] eqn:Hp; [|left; reflexivity].
  destruct (base_positions w !! name p); [|left; reflexivity].
  right. split; [eapply lookup_lt_Some; exact Hp|]. eexists. reflexivity.
Qed.

Lemma get_object_size_dimensions (p p' : Part F) :
  dimensions p' = dimensions p ->
  get_object_size (Some p') = get_object_size (Some p).
Proof. unfold get_object_size. intros ->. reflexivity. Qed.


Lemma explode_part_exploded (i j : nat) (center : Vec F) (w : World F) (p : Part F) (a : addr) :
  parts w !! j = Some p -> is_assembled i j = false ->
  base_positions w !! name p = Some a ->
  explode_part i center w j
  = set_location j (exploded_position (length (parts w)) j (read w a) center p) w.
Proof.
  intros Hp Hi Ha. unfold explode_part. rewrite Hp, Hi, Ha.
  rewrite update_after_set by (eapply lookup_lt_Some; exact Hp).
  reflexivity.
Qed.

Lemma explode_part_assigns (i : nat) (center : Vec F) (w : World F) (k : nat) :
  explode_part i center w k = w
  \/ (k < length (parts w) /\ exists v, explode_part i center w k = set_location k v w).
Proof.
  destruct (parts w !! k) as [p|] eqn:Hp;
    [|left; unfold explode_part; rewrite Hp; reflexivity].
  destruct (is_assembled i k) eqn:Hi;
    [left; unfold explode_part; rewrite Hp, Hi; reflexivity|].
  destruct (base_positions w !! name p) as [a|] eqn:Ha;
    [|left; unfold explode_part; rewrite Hp, Hi, Ha; reflexivity].
  right. split; [eapply lookup_lt_Some; exact Hp|].
  eexists. eapply explode_part_exploded; eassumption.
Qed.

Lemma reset_parts_frame (ks : list nat) (w : World F) : frame w (reset_parts ks w).
Proof. apply loop_frame. apply reset_part_assigns. Qed.

Lemma reset_all_frame (w : World F) : frame w (reset_all w).
Proof. apply reset_parts_frame. Qed.

Lemma explode_parts_frame (i : nat) (w : World F) : frame w (explode_parts i w).
Proof. apply loop_frame. apply explode_part_assigns. Qed.

Lemma exploded_world_frame (i : nat) (w : World F) : frame w (exploded_world i w).
Proof.
  unfold exploded_world.
  eapply frame_trans; [apply reset_all_frame | apply explode_parts_frame].
Qed.

(** A reset puts a part whose name is a key of [base_positions] at the
    value recorded there. *)
Lemma reset_part_placed (w : World F) (k : nat) (p : Part F) (a : addr) :
  parts w !! k = Some p -> base_positions w !! name p = Some a ->
  placed (reset_part w k) k (read w a).
Proof.
  intros Hp Ha. unfold reset_part. rewrite Hp, Ha.
  apply placed_set_location. eapply lookup_lt_Some. exact Hp.
Qed.

Lemma reset_parts_placed (ks : list nat) (w : World F) (k : nat) (p : Part F) (a : addr) :
  In k ks -> parts w !! k = Some p -> base_positions w !! name p = Some a ->
  a < length (heap w) ->
  placed (reset_parts ks w) k (read w a).
Proof.
  revert w p. induction ks as [|k0 ks IH]; intros w p Hin Hp Ha Hvalid; [destruct Hin|].
  unfold reset_parts. simpl. fold (reset_parts ks (reset_part w k0)).
  pose proof (reset_parts_frame [k0] w) as Hf. unfold reset_parts in Hf; simpl in Hf.
  destruct (in_dec Nat.eq_dec k ks) as [Hin'|Hnot].
  - destruct Hf as (B & _ & _ & P & _).
    destruct (P k p Hp) as (p' & Hp' & N' & _).
    rewrite <- (frame_read w (reset_part w k0) a) by (try exact Hvalid; apply (reset_parts_frame [k0] w)).
    eapply IH; [exact Hin' | exact Hp' | rewrite B, N'; exact Ha |].
    pose proof (frame_heap_length _ _ (reset_parts_frame [k0] w)) as Hl.
    unfold reset_parts in Hl; simpl in Hl. lia.
  - destruct Hin as [->|Hin]; [|contradiction].
    apply loop_placed; [apply reset_part_assigns | exact Hnot |].
    eapply reset_part_placed; eassumption.
Qed.
End StepFacts.

Section ExplodedPosition.
Context {F : Type} `{Scalar F} `{Trig F}.

Lemma exploded_position_dimensions (n j : nat) (base center : Vec F) (p p' : Part F) :
  dimensions p' = dimensions p ->
  exploded_position n j base center p' = exploded_position n j base center p.
Proof.
  intros Hd. unfold exploded_position, vertical_lift.
  rewrite (get_object_size_dimensions p p' Hd). reflexivity.
Qed.

(** Where the explosion of step [i] leaves a part that is not yet
    assembled and whose name has a base position. *)
Lemma exploded_world_position (w : World F) (i j : nat) (p : Part F) (a : addr) :
  parts w !! j = Some p -> i <= j ->
  base_positions w !! name p = Some a -> a < length (heap w) ->
  position_at (exploded_world i w) j
  = Some (exploded_position (length (parts w)) j (read w a)
                            (assembled_center (reset_all w)) p).
Proof.
  intros Hp Hij Ha Hvalid.
  pose proof (lookup_lt_Some _ _ _ Hp) as Hj.
  unfold exploded_world, explode_parts.
  set (w1 := reset_all w). set (g := explode_part i (assembled_center w1)).
  pose proof (reset_all_frame w) as Hf1. fold w1 in Hf1.
  assert (Hlen1 : length (parts w1) = length (parts w)) by apply Hf1.
  rewrite Hlen1.
  replace (length (parts w)) with (j + S (length (parts w) - S j)) at 1 by lia.
  rewrite seq_app, fold_left_app. simpl seq. simpl fold_left.
  set (wa := fold_left g (seq 0 j) w1).
  assert (Hfa : frame w wa).
  { eapply frame_trans; [exact Hf1|]. apply loop_frame. apply explode_part_assigns. }
  destruct Hfa as (Ba & Aa & La & Pa & Ea).
  destruct (Pa j p Hp) as (pa & Hpa & Na & Da).
  assert (Hstep : g wa j
            = set_location j (exploded_position (length (parts w)) j (read w a)
                                                (assembled_center w1) p) wa).
  { unfold g. erewrite explode_part_exploded;
      [| exact Hpa | apply Nat.ltb_ge; exact Hij | rewrite Ba, Na; exact Ha].
    rewrite La, (exploded_position_dimensions _ _ _ _ p pa Da).
    rewrite (frame_read w wa a); [reflexivity| |exact Hvalid].
    split; [exact Ba|]. split; [exact Aa|]. split; [exact La|].
    split; [exact Pa|exact Ea]. }
  apply placed_position. apply loop_placed.
  - apply explode_part_assigns.
  - rewrite in_seq. lia.
  - rewrite Hstep. apply placed_set_location. lia.
Qed.
End ExplodedPosition.

(** ** The exploded position over the reals *)

Local Open Scope R_scope.

Lemma parts_remaining_factor_R (n j : nat) :
  (j < n)%nat -> parts_remaining_factor n j = (INR n - INR j) / INR n.
Proof.
  intros Hj. unfold parts_remaining_factor.
  assert (E : (0 <? n)%nat = true) by (apply Nat.ltb_lt; lia).
  rewrite E. simpl. rewrite minus_IZR, <- !INR_IZR_INZ. reflexivity.
Qed.

Lemma explode_distance_R (factor : R) :
  explode_distance factor = Rmin (8 / 10 * (1 + factor * 4)) 10.
Proof.
  unfold explode_distance. rewrite py_min_R. unfold_consts. simpl.
  f_equal. lra.
Qed.

Lemma vertical_lift_R (factor : R) (p : Part R) :
  vertical_lift factor p = 8 / 10 * (8 / 10) * (1 + factor) * get_object_size (Some p).
Proof. unfold vertical_lift. unfold_consts. reflexivity. Qed.

(** C5 (amended).  In the explosion of step [i], a part at index [j >= i]
    whose name has a recorded base position [base] is placed at
    [base + direction * distance], where
    [remaining = (totalParts - j) / totalParts] and
    [distance = min (0.8 * (1 + remaining * 4), 10)], and is then lifted
    along z by [0.8 * 0.8 * (1 + remaining) * size(part)]. *)
Theorem exploded_position_formula (w : World R) (i j : nat) (p : Part R) (a : addr) :
  parts w !! j = Some p -> (i <= j)%nat ->
  base_positions w !! name p = Some a -> (a < length (heap w))%nat ->
  let total := INR (length (parts w)) in
  let remaining := (total - INR j) / total in
  let base := read w a in
  let direction := explode_direction base (assembled_center (reset_all w)) j in
  let distance := Rmin (8 / 10 * (1 + remaining * 4)) 10 in
  position_at (exploded_world i w) j
  = Some (mkVec (vx base + vx direction * distance)
                (vy base + vy direction * distance)
                (vz base + vz direction * distance
                 + 8 / 10 * (8 / 10) * (1 + remaining) * get_object_size (Some p))).
Proof.
  intros Hp Hij Ha Hvalid. cbv zeta.
  rewrite (exploded_world_position w i j p a Hp Hij Ha Hvalid).
  unfold exploded_position.
  rewrite parts_remaining_factor_R by (eapply lookup_lt_Some; exact Hp).
  rewrite explode_distance_R, vertical_lift_R.
  reflexivity.
Qed.

Lemma exploded_position_formula_witness :
  let w : World R := one_part_world in
  let p : Part R := mkPart "A" 0%nat (Some (vec_of_Z 4 4 4)) in
  let total := INR (length (parts w)) in
  let remaining := (total - INR 0%nat) / total in
  let base := read w 1%nat in
  let direction := explode_direction base (assembled_center (reset_all w)) 0%nat in
  let distance := Rmin (8 / 10 * (1 + remaining * 4)) 10 in
  position_at (exploded_world 0%nat w) 0%nat
  = Some (mkVec (vx base + vx direction * distance)
                (vy base + vy direction * distance)
                (vz base + vz direction * distance
                 + 8 / 10 * (8 / 10) * (1 + remaining) * get_object_size (Some p))).
Proof.
  apply (exploded_position_formula one_part_world 0%nat 0%nat
           (mkPart "A" 0%nat (Some (vec_of_Z 4 4 4))) 1%nat).
  - reflexivity.
  - lia.
  - reflexivity.
  - simpl. lia.
Defined.

(** C5 (as stated, refuted).  The lift along z is not proportional to
    [size(part) * remainingFactor]: for the same part of size [4], it is
    [5.12] when the factor is [1] (one part, index 0) and [3.84] when the
    factor is [1/2] (two parts, index 1), so no constant [k] gives
    [lift = k * size * remainingFactor] in both cases. *)
Lemma vertical_lift_not_proportional :
  ~ exists k : R,
      forall (n j : nat) (p : Part R), (j < n)%nat ->
        vertical_lift (parts_remaining_factor n j) p
        = k * (get_object_size (Some p) * parts_remaining_factor n j).
Proof.
  intros [k Hk].
  pose proof (Hk 1%nat 0%nat cube4 ltac:(lia)) as H1.
  pose proof (Hk 2%nat 1%nat cube4 ltac:(lia)) as H2.
  rewrite vertical_lift_R, parts_remaining_factor_R, get_object_size_cube4 in H1, H2 by lia.
  simpl in H1, H2. lra.
Qed.

(** ** The step loop *)

Local Close Scope R_scope.
Local Open Scope nat_scope.

Lemma ceil_div_below (n s k : nat) : 1 <= s -> k < ceil_div n s -> k * s < n.
Proof.
  intros Hs Hk. destruct (le_lt_dec n (k * s)) as [Hle|Hlt]; [|exact Hlt].
  pose proof (proj2 (ceil_div_spec n s Hs) k Hle). lia.
Qed.

(** The slices of the first [k] steps are the indices below [k * s]. *)
Lemma first_slices (n s k : nat) :
  k * s <= n ->
  List.concat (List.map (fun i => parts_in_this_step_indices i s n)
                        (List.map (fun k => k * s) (seq 0 k)))
  = seq 0 (k * s).
Proof.
  induction k as [|k IH]; intros Hk; [reflexivity|].
  rewrite seq_S, !map_app, concat_app, IH by lia. simpl.
  rewrite app_nil_r. unfold parts_in_this_step_indices.
  rewrite Nat.min_l by lia.
  replace (k * s + s - k * s) with s by lia.
  replace (s + k * s) with (k * s + s) by lia.
  rewrite seq_app. reflexivity.
Qed.

Section LoopFacts.
Context {F : Type} `{Scalar F} `{Trig F}.

Lemma step_body_parts_length (md : list PartInfo) (s : nat) (w : World F) (i : nat) :
  length (parts (step_body md s w i)) = length (parts w).
Proof.
  unfold step_body; simpl.
  pose proof (reset_parts_frame (active_parts_in_scene w) (exploded_world i w)) as Hf2.
  pose proof (exploded_world_frame i w) as Hf1.
  destruct Hf1 as (_ & _ & L1 & _), Hf2 as (_ & _ & L2 & _). congruence.
Qed.

Lemma step_body_active (md : list PartInfo) (s : nat) (w : World F) (i : nat) :
  active_parts_in_scene (step_body md s w i)
  = active_parts_in_scene w ++ parts_in_this_step_indices i s (length (parts w)).
Proof.
  unfold step_body; simpl.
  pose proof (reset_parts_frame (active_parts_in_scene w) (exploded_world i w)) as Hf2.
  pose proof (exploded_world_frame i w) as Hf1.
  destruct Hf1 as (_ & (A1 & _) & _), Hf2 as (_ & (A2 & _) & _).
  rewrite A2, A1. reflexivity.
Qed.

Lemma step_body_step_data (md : list PartInfo) (s : nat) (w : World F) (i : nat) :
  length (step_data (step_body md s w i)) = S (length (step_data w)).
Proof.
  unfold step_body; simpl.
  pose proof (reset_parts_frame (active_parts_in_scene w) (exploded_world i w)) as Hf2.
  pose proof (exploded_world_frame i w) as Hf1.
  destruct Hf1 as (_ & (_ & _ & S1) & _), Hf2 as (_ & (_ & _ & S2) & _).
  rewrite length_app, S2, S1. simpl. lia.
Qed.

Lemma steps_parts_length (md : list PartInfo) (s : nat) (starts : list nat) (w : World F) :
  length (parts (fold_left (step_body md s) starts w)) = length (parts w).
Proof.
  revert w. induction starts as [|i starts IH]; intros w; [reflexivity|].
  simpl. rewrite IH. apply step_body_parts_length.
Qed.

(** After the steps starting at [starts], the list of assembled parts
    has grown by their slices, in order. *)
Lemma steps_active (md : list PartInfo) (s : nat) (starts : list nat) (w : World F) :
  active_parts_in_scene (fold_left (step_body md s) starts w)
  = active_parts_in_scene w
    ++ List.concat (List.map (fun i => parts_in_this_step_indices i s (length (parts w)))
                             starts).
Proof.
  revert w. induction starts as [|i starts IH]; intros w.
  - simpl. symmetry. apply app_nil_r.
  - simpl. rewrite IH, step_body_active, step_body_parts_length.
    symmetry. apply app_assoc.
Qed.

Lemma steps_step_data (md : list PartInfo) (s : nat) (starts : list nat) (w : World F) :
  length (step_data (fold_left (step_body md s) starts w))
  = length (step_data w) + length starts.
Proof.
  revert w. induction starts as [|i starts IH]; intros w; [simpl; lia|].
  simpl. rewrite IH, step_body_step_data. lia.
Qed.
End LoopFacts.

(* ===================================================================== *)
(** * Further properties of the script *)
(* ===================================================================== *)

(** ** The arrow generator *)

Local Close Scope nat_scope.
Local Open Scope R_scope.

(** X1.  [create_arrow] gives no arrow exactly when the segment is shorter
    than [0.01]: the second exit, for a zero direction inside the
    minimum-length adjustment, is never taken. *)
Theorem create_arrow_none_iff (start end_ : Vec R) (part : option (Part R)) :
  create_arrow start end_ part = None <-> vlength (vsub end_ start) < 1 / 100.
Proof.
  split.
  - intros Hnone. destruct (Rlt_dec (vlength (vsub end_ start)) (1 / 100)) as [Hlt|Hge];
      [exact Hlt|].
    rewrite create_arrow_some in Hnone by lra. discriminate.
  - intros Hlt. unfold create_arrow.
    change (@s_ltb R Scalar_R) with Rltb.
    assert (E : Rltb (vlength (vsub end_ start)) (dec 1 100) = true)
      by (apply Rltb_true; unfold_consts; lra).
    rewrite E. reflexivity.
Qed.

Lemma clamped_between (lo hi x : R) :
  lo <= hi -> lo <= Rmax lo (Rmin hi x) <= hi.
Proof.
  intros Hle. split; [apply Rmax_l|].
  apply Rmax_lub; [exact Hle | apply Rmin_l].
Qed.

(** X2.  Every arrow has a shaft radius between [0.02] and [0.15], a head
    radius between [0.0045] and [0.4], and shaft and head depths that are
    positive. *)
Theorem create_arrow_radii_bounds (start end_ : Vec R) (part : option (Part R)) :
  1 / 100 <= vlength (vsub end_ start) ->
  exists arrow,
    create_arrow start end_ part = Some arrow
    /\ 2 / 100 <= shaft_radius arrow <= 15 / 100
    /\ 45 / 10000 <= head_radius arrow <= 4 / 10
    /\ 0 < shaft_depth arrow
    /\ 0 < head_depth arrow.
Proof.
  intros Hh. eexists. split; [apply create_arrow_some; exact Hh|].
  cbn [shaft_radius head_radius shaft_depth head_depth].
  set (h := vlength (vsub end_ start)) in *.
  set (size := get_object_size part).
  pose proof (clamped_between (2 / 100) (15 / 100) (size * (5 / 100)) ltac:(lra)) as Hs.
  pose proof (clamped_between (6 / 100) (4 / 10) (size * (15 / 100)) ltac:(lra)) as Hc.
  set (c := Rmax (6 / 100) (Rmin (4 / 10) (size * (15 / 100)))) in *.
  pose proof (Rmin_l c (h * (3 / 10) * (15 / 10))) as Hl.
  assert (Hg : 45 / 10000 <= Rmin c (h * (3 / 10) * (15 / 10)))
    by (apply Rmin_glb; lra).
  repeat split; lra.
Qed.

Lemma create_arrow_radii_bounds_witness :
  exists arrow,
    create_arrow (vec_of_Z 0 0 0) (vec_of_Z 0 0 1) (Some (cube4 : Part R)) = Some arrow
    /\ 2 / 100 <= shaft_radius arrow <= 15 / 100
    /\ 45 / 10000 <= head_radius arrow <= 4 / 10
    /\ 0 < shaft_depth arrow
    /\ 0 < head_depth arrow.
Proof.
  apply (create_arrow_radii_bounds (vec_of_Z 0 0 0) (vec_of_Z 0 0 1) (Some cube4)).
  rewrite vlength_unit_z. lra.
Defined.

(** ** The size estimator *)

(** X3.  The size of an object is never below [1e-6], and for an object
    with dimensions it is never above the largest of them (or [1e-6], if
    all are smaller). *)
Theorem get_object_size_between (obj : option (Part R)) :
  1 / 1000000 <= get_object_size obj
  /\ match obj with
     | Some o =>
       match dimensions o with
       | Some dims =>
         get_object_size obj
         <= Rmax (Rmax (Rmax (vx dims) (vy dims)) (vz dims)) (1 / 1000000)
       | None => True
       end
     | None => True
     end.
Proof.
  destruct obj as [[n a [dims|]]|];
    try (split; [unfold get_object_size; simpl; unfold_consts; lra | exact I]).
  simpl dimensions. lazy beta iota.
  pose proof (Rmax_l (vx dims) (vy dims)) as Hx.
  pose proof (Rmax_r (vx dims) (vy dims)) as Hy.
  set (m1 := Rmax (vx dims) (vy dims)) in *.
  pose proof (Rmax_l m1 (vz dims)) as H1.
  pose proof (Rmax_r m1 (vz dims)) as Hz.
  set (m2 := Rmax m1 (vz dims)) in *.
  pose proof (Rmax_l m2 (1 / 1000000)) as H2.
  pose proof (Rmax_r m2 (1 / 1000000)) as He.
  set (m3 := Rmax m2 (1 / 1000000)) in *.
  clearbody m1 m2 m3.
  unfold get_object_size, py_sum, py_len; simpl. unfold_consts.
  case_Rltb (1 / 1000000) (vx dims); case_Rltb (1 / 1000000) (vy dims);
    case_Rltb (1 / 1000000) (vz dims); simpl;
    rewrite <- ?INR_IZR_INZ; cbn [INR]; split; lra.
Qed.

(** ** Directions and distances *)

Lemma normalized_unit (d : Vec R) : 0 < vlength d -> vlength (normalized d) = 1.
Proof.
  intros Hpos. rewrite normalized_R by exact Hpos.
  pose proof (vlength_sqr d) as Hsq.
  set (h := vlength d) in *.
  unfold vlength, vdiv; simpl.
  replace (vx d / h * (vx d / h) + vy d / h * (vy d / h) + vz d / h * (vz d / h))
    with ((vx d * vx d + vy d * vy d + vz d * vz d) / (h * h)) by (field; lra).
  rewrite <- Hsq. replace (h * h / (h * h)) with 1 by (field; lra).
  apply sqrt_1.
Qed.

(** X4.  The direction in which a part is pushed out always has length 1,
    whichever branch produces it (the normalised offset from the center of
    the assembled parts, the normalised pseudo-radial vector for a part at
    the center, or straight up): the part is moved by exactly the explode
    distance before the lift. *)
Theorem explode_direction_unit (base center : Vec R) (j : nat) :
  vlength (explode_direction base center j) = 1.
Proof.
  unfold explode_direction.
  change (@s_ltb R Scalar_R) with Rltb.
  match goal with
  | |- vlength (if Rltb EPS (vlength ?d) then _ else _) = 1 =>
    set (dir := d); case_Rltb (EPS : R) (vlength dir)
  end.
  - apply normalized_unit. unfold_consts. lra.
  - unfold vlength; simpl.
    replace (0 * 0 + 0 * 0 + 1 * 1) with 1 by ring. apply sqrt_1.
Qed.

Lemma remaining_factor_range (n j : nat) :
  (j < n)%nat -> 0 < parts_remaining_factor n j <= 1.
Proof.
  intros Hj. rewrite parts_remaining_factor_R by exact Hj.
  assert (Hn : 0 < INR n) by (apply lt_0_INR; lia).
  assert (HJ : 0 <= INR j) by apply pos_INR.
  assert (HJn : INR j < INR n) by (apply lt_INR; exact Hj).
  split.
  - apply Rdiv_lt_0_compat; lra.
  - pose proof (Rle_mult_inv_pos (INR j) (INR n) HJ Hn) as Hq.
    replace ((INR n - INR j) / INR n) with (1 - INR j * / INR n) by (field; lra).
    lra.
Qed.

(** X5.  With the constants of the script the explode distance of a part
    is [0.8 * (1 + 4 * remaining)], more than [0.8] and at most [4]: the
    cap at [MAX_EXPLODE_DISTANCE = 10] never applies. *)
Theorem explode_distance_uncapped (n j : nat) :
  (j < n)%nat ->
  let remaining := parts_remaining_factor n j in
  explode_distance remaining = 8 / 10 * (1 + remaining * 4)
  /\ 8 / 10 < explode_distance remaining <= 4.
Proof.
  intros Hj remaining.
  pose proof (remaining_factor_range n j Hj) as Hr. fold remaining in Hr.
  rewrite explode_distance_R.
  rewrite Rmin_left by lra. split; [reflexivity | lra].
Qed.

Lemma explode_distance_uncapped_witness :
  explode_distance (parts_remaining_factor 4 1)
  = 8 / 10 * (1 + parts_remaining_factor 4 1 * 4)
  /\ 8 / 10 < explode_distance (parts_remaining_factor 4 1 : R) <= 4.
Proof.
  apply (explode_distance_uncapped 4 1). lia.
Defined.

(** ** The camera after framing *)

Lemma view_direction_unit :
  vx view_direction * vx view_direction + vy view_direction * vy view_direction
  + vz view_direction * vz view_direction = 1.
Proof.
  unfold view_direction; simpl.
  pose proof sqrt_164_pos as Hpos.
  assert (Hsq : sqrt (164 / 100) * sqrt (164 / 100) = 164 / 100) by (apply sqrt_sqrt; lra).
  set (s := sqrt (164 / 100)) in *.
  replace (8 / 10 / s * (8 / 10 / s) + - (8 / 10) / s * (- (8 / 10) / s)
           + 6 / 10 / s * (6 / 10 / s))
    with (164 / 100 / (s * s)) by (field; lra).
  rewrite Hsq. field.
Qed.

Lemma offset_length (center u : Vec R) (d : R) :
  vx u * vx u + vy u * vy u + vz u * vz u = 1 -> 0 <= d ->
  vlength (vsub center (mkVec (vx center + vx u * d)
                              (vy center + vy u * d)
                              (vz center + vz u * d))) = d.
Proof.
  intros Hu Hd. unfold vlength, vsub. cbn [vx vy vz].
  change (@s_sqrt R Scalar_R) with sqrt.
  change (@s_add R Scalar_R) with Rplus.
  change (@s_sub R Scalar_R) with Rminus.
  change (@s_mul R Scalar_R) with Rmult.
  replace ((vx center - (vx center + vx u * d)) * (vx center - (vx center + vx u * d))
           + (vy center - (vy center + vy u * d)) * (vy center - (vy center + vy u * d))
           + (vz center - (vz center + vz u * d)) * (vz center - (vz center + vz u * d)))
    with ((vx u * vx u + vy u * vy u + vz u * vz u) * (d * d)) by ring.
  rewrite Hu, Rmult_1_l. apply sqrt_square. exact Hd.
Qed.

(** The camera put at [center + view_direction * d] is [d] away from the
    center. *)
Lemma camera_offset_length (center : Vec R) (d : R) :
  0 <= d ->
  vlength (vsub center (mkVec (vx center + vx view_direction * d)
                              (vy center + vy view_direction * d)
                              (vz center + vz view_direction * d))) = d.
Proof. apply offset_length. exact view_direction_unit. Qed.

Lemma look_at_direction_far (location target : Vec R) :
  1 / 1000000 <= vlength (vsub target location) ->
  look_at_direction location target = Some (vsub target location).
Proof.
  intros Hfar. unfold look_at_direction.
  change (@s_ltb R Scalar_R) with Rltb.
  assert (E : Rltb (vlength (vsub target location)) EPS = false)
    by (apply Rltb_false; unfold_consts; lra).
  rewrite E. reflexivity.
Qed.

(** With at least one contributed box, [frame_objects] frames the
    midpoint of two corners at [1.5] times a size of at least [0.5]. *)
Lemma frame_objects_of_corners
    (camera : Vec R) (target_objects : list (option (SceneObj R))) :
  all_contributions target_objects <> [] ->
  exists center d,
    frame_objects (Some camera) target_objects
    = (Some (mkVec (vx center + vx view_direction * (Rmax d (5 / 10) * (15 / 10)))
                   (vy center + vy view_direction * (Rmax d (5 / 10) * (15 / 10)))
                   (vz center + vz view_direction * (Rmax d (5 / 10) * (15 / 10)))),
       [InfoFramed center (Rmax d (5 / 10)) (Rmax d (5 / 10) * (15 / 10))]).
Proof.
  intros Hne.
  destruct (extend_all_none _ Hne) as (lo & hi & E & _).
  exists (vdiv (vadd lo hi) (dec 2 1)), (vlength (vsub hi lo)).
  pose proof (valid_targets_nonempty _ Hne) as Hvalid.
  unfold frame_objects. unfold all_contributions in E.
  destruct (omap is_valid_target target_objects) as [|o objs] eqn:Ev; [congruence|].
  rewrite fold_accumulate, E.
  rewrite py_max_R, normalized_offset.
  unfold vadd, vscale; simpl. unfold_consts.
  reflexivity.
Qed.

(** X6.  Whenever [frame_objects] has a valid target and a camera, it
    ends by logging the framing it used, with a size of at least [0.5] and
    a distance of [1.5] times the size, and it leaves the camera exactly
    that distance away from the center.  The camera is therefore never at
    the center, and the [look_at] that follows always sets the rotation
    (its early return for a zero direction is not taken). *)
Theorem frame_objects_camera_distance
    (camera : Vec R) (target_objects : list (option (SceneObj R))) :
  omap is_valid_target target_objects <> [] ->
  exists camera' center size distance log,
    frame_objects (Some camera) target_objects
    = (Some camera', log ++ [InfoFramed center size distance])
    /\ 5 / 10 <= size
    /\ distance = size * (15 / 10)
    /\ vlength (vsub center camera') = distance
    /\ look_at_direction camera' center = Some (vsub center camera').
Proof.
  intros Hvalid.
  destruct (all_contributions target_objects) as [|box boxes] eqn:Hc.
  - exists default_view, vzero, 5, (5 * (15 / 10)), [WarnNoBounds].
    split; [apply frame_objects_no_bounds; assumption|].
    assert (Hlen : vlength (vsub vzero default_view) = 5 * (15 / 10)).
    { exact (camera_offset_length vzero (5 * (15 / 10)) ltac:(lra)). }
    split; [lra|]. split; [reflexivity|]. split; [exact Hlen|].
    apply look_at_direction_far. rewrite Hlen. lra.
  - assert (Hne : all_contributions target_objects <> []) by (rewrite Hc; discriminate).
    destruct (frame_objects_of_corners camera target_objects Hne) as (c & d & Hf).
    eexists _, _, _, _, []. split; [exact Hf|].
    set (size := Rmax d (5 / 10)).
    assert (Hsize : 5 / 10 <= size) by apply Rmax_r.
    assert (Hlen : forall center,
               vlength (vsub center
                          (mkVec (vx center + vx view_direction * (size * (15 / 10)))
                                 (vy center + vy view_direction * (size * (15 / 10)))
                                 (vz center + vz view_direction * (size * (15 / 10)))))
               = size * (15 / 10)).
    { intros center. apply camera_offset_length. lra. }
    split; [exact Hsize|]. split; [reflexivity|]. split; [apply Hlen|].
    apply look_at_direction_far. rewrite Hlen. lra.
Qed.

Lemma frame_objects_camera_distance_witness :
  exists camera' center size distance log,
    frame_objects (Some (vec_of_Z 7 7 7)) [Some (unit_cube false : SceneObj R)]
    = (Some camera', log ++ [InfoFramed center size distance])
    /\ 5 / 10 <= size
    /\ distance = size * (15 / 10)
    /\ vlength (vsub center camera') = distance
    /\ look_at_direction camera' center = Some (vsub center camera').
Proof.
  apply (frame_objects_camera_distance (vec_of_Z 7 7 7) [Some (unit_cube false)]).
  simpl. discriminate.
Defined.

(** ** Parts without a recorded base position *)

Local Close Scope R_scope.
Local Open Scope nat_scope.

Section Unkeyed.
Context {F : Type} `{Scalar F} `{Trig F}.

Lemma unkeyed_frame (w w' : World F) (j : nat) :
  frame w w' -> unkeyed w j -> unkeyed w' j.
Proof.
  intros (B & _ & _ & P & _) (p & Hp & Hn).
  destruct (P j p Hp) as (p' & Hp' & N' & _).
  exists p'. split; [exact Hp'|]. rewrite B, N'. exact Hn.
Qed.

Lemma reset_part_unkeyed (w : World F) (j : nat) : unkeyed w j -> reset_part w j = w.
Proof. intros (p & Hp & Hn). unfold reset_part. rewrite Hp, Hn. reflexivity. Qed.

Lemma explode_part_unkeyed (i : nat) (center : Vec F) (w : World F) (j : nat) :
  unkeyed w j -> explode_part i center w j = w.
Proof.
  intros (p & Hp & Hn). unfold explode_part. rewrite Hp, Hn.
  destruct (is_assembled i j); reflexivity.
Qed.

Section SkippingLoops.
Variable g : World F -> nat -> World F.
Hypothesis g_assigns :
  forall w k, g w k = w \/ (k < length (parts w) /\ exists v, g w k = set_location k v w).
Variable j : nat.
Hypothesis g_skips : forall w, unkeyed w j -> g w j = w.

Lemma loop_unkeyed_placed (ks : list nat) (w : World F) (u : Vec F) :
  unkeyed w j -> placed w j u -> placed (fold_left g ks w) j u.
Proof using g_assigns g_skips.
  revert w. induction ks as [|k ks IH]; intros w Hun Hp; [exact Hp|].
  simpl. destruct (Nat.eq_dec k j) as [->|Hne].
  - rewrite g_skips by exact Hun. apply IH; assumption.
  - destruct (g_assigns w k) as [->|(_ & v & ->)]; [apply IH; assumption|].
    apply IH.
    + eapply unkeyed_frame; [apply frame_set_location | exact Hun].
    + apply placed_set_location_other; assumption.
Qed.
End SkippingLoops.

Lemma reset_parts_unkeyed (ks : list nat) (w : World F) (j : nat) (u : Vec F) :
  unkeyed w j -> placed w j u -> placed (reset_parts ks w) j u.
Proof.
  apply loop_unkeyed_placed; [apply reset_part_assigns|].
  intros w'. apply reset_part_unkeyed.
Qed.

Lemma explode_parts_unkeyed (i : nat) (w : World F) (j : nat) (u : Vec F) :
  unkeyed w j -> placed w j u -> placed (explode_parts i w) j u.
Proof.
  apply loop_unkeyed_placed; [apply explode_part_assigns|].
  intros w'. apply explode_part_unkeyed.
Qed.

Lemma step_body_unkeyed (md : list PartInfo) (s : nat) (w : World F) (i j : nat) (u : Vec F) :
  unkeyed w j -> placed w j u ->
  unkeyed (step_body md s w i) j /\ placed (step_body md s w i) j u.
Proof.
  intros Hun Hp.
  pose proof (reset_all_frame w) as F1.
  pose proof (explode_parts_frame i (reset_all w)) as F2.
  pose proof (reset_parts_frame (active_parts_in_scene w) (exploded_world i w)) as F3.
  assert (Hun1 : unkeyed (reset_all w) j) by (eapply unkeyed_frame; eassumption).
  assert (Hun2 : unkeyed (exploded_world i w) j) by (eapply unkeyed_frame; eassumption).
  assert (Hp2 : placed (exploded_world i w) j u).
  { apply explode_parts_unkeyed; [exact Hun1|].
    apply reset_parts_unkeyed; assumption. }
  split.
  - exact (unkeyed_frame _ _ j F3 Hun2).
  - exact (reset_parts_unkeyed _ _ j u Hun2 Hp2).
Qed.

Lemma steps_unkeyed (md : list PartInfo) (s : nat) (starts : list nat)
    (w : World F) (j : nat) (u : Vec F) :
  unkeyed w j -> placed w j u ->
  unkeyed (fold_left (step_body md s) starts w) j
  /\ placed (fold_left (step_body md s) starts w) j u.
Proof.
  revert w. induction starts as [|i starts IH]; intros w Hun Hp; [split; assumption|].
  simpl. destruct (step_body_unkeyed md s w i j u Hun Hp) as [Hun' Hp'].
  apply IH; assumption.
Qed.

(** X7.  A part whose name is not a key of [base_positions] is skipped by
    every reset and every explosion: through all the steps of the loop and
    the final reset it stays at the position it had when the loop began. *)
Theorem unkeyed_part_never_moved
    (md : list PartInfo) (target_steps : nat) (w : World F) (j : nat) (u : Vec F) :
  unkeyed w j -> placed w j u ->
  placed (fst (finish md (step_loop md target_steps w))) j u.
Proof.
  intros Hun Hp. unfold step_loop.
  destruct (steps_unkeyed md (step_size_for target_steps (length (parts w)))
              (py_range (length (parts w))
                        (step_size_for target_steps (length (parts w))))
              w j u Hun Hp) as [Hun' Hp'].
  unfold finish. cbn [fst].
  exact (reset_parts_unkeyed _ _ j u Hun' Hp').
Qed.
End Unkeyed.

Lemma unkeyed_part_never_moved_witness :
  placed (fst (finish [] (step_loop [] TARGET_STEPS (stray_part_world : World R))))
         0 (vec_of_Z 3 0 0).
Proof.
  apply (unkeyed_part_never_moved [] TARGET_STEPS (stray_part_world : World R) 0
           (vec_of_Z 3 0 0)).
  - eexists. split; reflexivity.
  - eexists. split; reflexivity.
Defined.

(** ** The number of steps *)

Section Books.
Context {F : Type} `{Scalar F} `{Trig F}.

Lemma record_base_fold_books (ps : list (Part F)) (w : World F) :
  parts (fold_left record_base ps w) = parts w
  /\ step_data (fold_left record_base ps w) = step_data w.
Proof.
  revert w. induction ps as [|p ps IH]; intros w; [split; reflexivity|].
  simpl. destruct (IH (record_base w p)) as [E1 E2]. rewrite E1, E2. split; reflexivity.
Qed.

Lemma assign_one_books (st : gmap string nat * list PartInfo * World F) (i : nat) :
  length (parts (snd (assign_one st i))) = length (parts (snd st))
  /\ step_data (snd (assign_one st i)) = step_data (snd st).
Proof.
  destruct st as [[counts infos] w]. unfold assign_one. simpl snd.
  destruct (parts w !! i) as [p|]; [|split; reflexivity].
  destruct (dimensions p); [|split; reflexivity].
  simpl. split; [apply length_alter | reflexivity].
Qed.

Lemma assign_fold_books (ks : list nat) (st : gmap string nat * list PartInfo * World F) :
  length (parts (snd (fold_left assign_one ks st))) = length (parts (snd st))
  /\ step_data (snd (fold_left assign_one ks st)) = step_data (snd st).
Proof.
  revert st. induction ks as [|k ks IH]; intros st; [split; reflexivity|].
  simpl. destruct (IH (assign_one st k)) as [E1 E2].
  destruct (assign_one_books st k) as [E3 E4].
  rewrite E1, E2, E3, E4. split; reflexivity.
Qed.

Lemma assign_materials_and_names_books (w : World F) :
  length (parts (snd (assign_materials_and_names w))) = length (parts w)
  /\ step_data (snd (assign_materials_and_names w)) = step_data w.
Proof.
  unfold assign_materials_and_names.
  pose proof (assign_fold_books (seq 0 (length (parts w))) (∅, [], w)) as Hb.
  destruct (fold_left assign_one (seq 0 (length (parts w))) (∅, [], w)) as [[c infos] w'].
  exact Hb.
Qed.

Lemma update_location_books (k : nat) (f : Vec F -> Vec F) (w : World F) :
  parts (update_location k f w) = parts w
  /\ step_data (update_location k f w) = step_data w.
Proof.
  unfold update_location. destruct (parts w !! k); split; reflexivity.
Qed.

Lemma place_all_books (cell : nat -> Vec F) (ks : list nat) (w : World F) :
  parts (fold_left (fun w i => update_location i (fun _ => cell i) w) ks w) = parts w
  /\ step_data (fold_left (fun w i => update_location i (fun _ => cell i) w) ks w)
     = step_data w.
Proof.
  revert w. induction ks as [|k ks IH]; intros w; [split; reflexivity|].
  simpl. destruct (IH (update_location k (fun _ => cell k) w)) as [E1 E2].
  destruct (update_location_books k (fun _ => cell k) w) as [E3 E4].
  rewrite E1, E2, E3, E4. split; reflexivity.
Qed.

Lemma arrange_grid_books (w : World F) :
  parts (arrange_grid w) = parts w /\ step_data (arrange_grid w) = step_data w.
Proof. unfold arrange_grid. apply place_all_books. Qed.

Lemma before_steps_books (store : list (Vec F)) (parts0 : list (Part F)) :
  length (parts (snd (before_steps store parts0))) = length parts0
  /\ step_data (snd (before_steps store parts0)) = [].
Proof.
  unfold before_steps.
  set (w0 := mkWorld store parts0 ∅ [] [] []).
  destruct (record_base_fold_books (parts w0) w0) as [P1 S1].
  pose proof (assign_materials_and_names_books (record_base_positions w0)) as [P2 S2].
  destruct (assign_materials_and_names (record_base_positions w0)) as [md w2].
  simpl snd in *.
  destruct (reset_all_frame w2) as (_ & (_ & _ & S3) & P3 & _).
  destruct (arrange_grid_books (reset_all w2)) as [P4 S4].
  split.
  - rewrite P4, P3, P2. unfold record_base_positions. rewrite P1. reflexivity.
  - rewrite S4, S3, S2. unfold record_base_positions. rewrite S1. reflexivity.
Qed.

Lemma main_with_before_steps (target_steps : nat) (store : list (Vec F))
    (parts0 : list (Part F)) :
  parts0 <> [] ->
  main_with target_steps store parts0
  = Some (finish (fst (before_steps store parts0))
                 (step_loop (fst (before_steps store parts0)) target_steps
                            (snd (before_steps store parts0)))).
Proof.
  intros Hne. destruct parts0 as [|p ps]; [congruence|].
  unfold main_with, before_steps.
  destruct (assign_materials_and_names _) as [md w2]. reflexivity.
Qed.

Lemma py_range_length (n s : nat) : 1 <= s -> length (py_range n s) = ceil_div n s.
Proof.
  intros Hs. unfold py_range. rewrite range_from_multiples by lia.
  rewrite length_map, length_seq, Nat.sub_0_r. reflexivity.
Qed.

(** X8.  For a non-empty list of parts and a positive target, [main]
    records one step entry per pass of the loop, [ceil(n / step_size)] of
    them with [step_size = ceil(n / target)], which is at least one and at
    most the target, and closes the list with the final entry. *)
Theorem main_step_count (target_steps : nat) (store : list (Vec F))
    (parts0 : list (Part F)) :
  parts0 <> [] -> 1 <= target_steps ->
  let n := length parts0 in
  let step_size := ceil_div n target_steps in
  exists w md,
    main_with target_steps store parts0 = Some (w, md)
    /\ length (md_steps md) = ceil_div n step_size + 1
    /\ 1 <= ceil_div n step_size <= target_steps
    /\ last (md_steps md) = Some final_step.
Proof.
  intros Hne Ht n step_size.
  assert (Hn : 1 <= n) by (unfold n; destruct parts0; [congruence | simpl; lia]).
  rewrite main_with_before_steps by exact Hne.
  destruct (before_steps_books store parts0) as [P S].
  set (md0 := fst (before_steps store parts0)) in *.
  set (w0 := snd (before_steps store parts0)) in *.
  eexists _, _. split; [unfold finish; reflexivity|].
  cbn [md_steps finish_metadata].
  destruct (reset_all_frame (step_loop md0 target_steps w0)) as (_ & (_ & _ & S3) & _).
  destruct (step_size_for_ceil target_steps n Hn Ht) as [Es Hs].
  fold step_size in Es, Hs.
  assert (Hlen : length (step_data (step_loop md0 target_steps w0)) = ceil_div n step_size).
  { unfold step_loop. rewrite steps_step_data, S, P. fold n. rewrite Es.
    simpl. apply py_range_length. exact Hs. }
  split; [rewrite length_app, S3, Hlen; simpl; lia|].
  split; [|apply last_snoc].
  split.
  - rewrite ceil_div_pos by lia. lia.
  - apply (proj2 (ceil_div_spec n step_size Hs)).
    pose proof (proj1 (ceil_div_spec n target_steps Ht)) as Hup. fold step_size in Hup. lia.
Qed.
End Books.

Lemma main_step_count_witness :
  exists w md,
    main_with TARGET_STEPS [vec_of_Z 3 0 0] [mkPart "Cube" 0 (Some (vec_of_Z 4 4 4 : Vec R))]
    = Some (w, md)
    /\ length (md_steps md) = ceil_div 1 (ceil_div 1 TARGET_STEPS) + 1
    /\ 1 <= ceil_div 1 (ceil_div 1 TARGET_STEPS) <= TARGET_STEPS
    /\ last (md_steps md) = Some final_step.
Proof.
  apply (main_step_count TARGET_STEPS [vec_of_Z 3 0 0]
           [mkPart "Cube" 0 (Some (vec_of_Z 4 4 4 : Vec R))]).
  - discriminate.
  - unfold TARGET_STEPS. lia.
Defined.

(** ** Recording the base positions *)

Section Recording.
Context {F : Type} `{Scalar F} `{Trig F}.

Lemma keeps_base_refl (w : World F) : keeps_base w w.
Proof. intros Ha. split; [exact Ha|]. split; [reflexivity|]. intros n a _. reflexivity. Qed.

Lemma keeps_base_trans (w1 w2 w3 : World F) :
  keeps_base w1 w2 -> keeps_base w2 w3 -> keeps_base w1 w3.
Proof.
  intros K1 K2 Ha. destruct (K1 Ha) as (A2 & B2 & V2).
  destruct (K2 A2) as (A3 & B3 & V3).
  split; [exact A3|]. split; [congruence|].
  intros n a Hn. rewrite (V3 n a) by (rewrite B2; exact Hn). apply (V2 n a Hn).
Qed.

Lemma keeps_base_set_location (k : nat) (v : Vec F) (w : World F) :
  keeps_base w (set_location k v w).
Proof.
  intros Ha. unfold set_location. split; [|split; [reflexivity|]].
  - intros n a Hn. simpl in *. destruct (Ha n a Hn) as [Hlt Hloc].
    split; [rewrite length_app; lia|].
    intros j p Hp. destruct (decide (k = j)) as [->|Hne].
    + rewrite list_lookup_alter_eq in Hp.
      destruct (parts w !! j); [|discriminate]. simpl in Hp.
      injection Hp as <-. simpl. lia.
    + rewrite list_lookup_alter_ne in Hp by exact Hne. eapply Hloc; exact Hp.
  - intros n a Hn. simpl. destruct (Ha n a Hn) as [Hlt _].
    apply lookup_app_l. exact Hlt.
Qed.

Lemma keeps_base_update_location (k : nat) (f : Vec F -> Vec F) (w : World F) :
  keeps_base w (update_location k f w).
Proof.
  intros Ha. unfold update_location.
  destruct (parts w !! k) as [p|] eqn:Hp; [|apply keeps_base_refl; exact Ha].
  split; [|split; [reflexivity|]].
  - intros n a Hn. simpl in *. destruct (Ha n a Hn) as [Hlt Hloc].
    split; [rewrite length_alter; exact Hlt | exact Hloc].
  - intros n a Hn. simpl. destruct (Ha n a Hn) as [_ Hloc].
    apply list_lookup_alter_ne. exact (Hloc k p Hp).
Qed.

Lemma keeps_base_rename (k : nat) (new_name : string) (w : World F) :
  keeps_base w (rename k new_name w).
Proof.
  intros Ha. unfold rename. split; [|split; [reflexivity|reflexivity]].
  intros n a Hn. simpl in *. destruct (Ha n a Hn) as [Hlt Hloc].
  split; [exact Hlt|].
  intros j p Hp. destruct (decide (k = j)) as [->|Hne].
  - rewrite list_lookup_alter_eq in Hp.
    destruct (parts w !! j) as [q|] eqn:Hq; [|discriminate]. simpl in Hp.
    injection Hp as <-. simpl. eapply Hloc; exact Hq.
  - rewrite list_lookup_alter_ne in Hp by exact Hne. eapply Hloc; exact Hp.
Qed.

Lemma keeps_base_reset_parts (ks : list nat) (w : World F) :
  keeps_base w (reset_parts ks w).
Proof.
  revert w. induction ks as [|k ks IH]; intros w; [apply keeps_base_refl|].
  unfold reset_parts. simpl. eapply keeps_base_trans; [|apply IH].
  destruct (reset_part_assigns w k) as [->|(_ & v & ->)];
    [apply keeps_base_refl | apply keeps_base_set_location].
Qed.

Lemma keeps_base_place_all (cell : nat -> Vec F) (ks : list nat) (w : World F) :
  keeps_base w (fold_left (fun w i => update_location i (fun _ => cell i) w) ks w).
Proof.
  revert w. induction ks as [|k ks IH]; intros w; [apply keeps_base_refl|].
  simpl. eapply keeps_base_trans; [apply keeps_base_update_location | apply IH].
Qed.

Lemma keeps_base_assign_one (st : gmap string nat * list PartInfo * World F) (i : nat) :
  keeps_base (snd st) (snd (assign_one st i)).
Proof.
  destruct st as [[counts infos] w]. unfold assign_one. simpl snd.
  destruct (parts w !! i) as [p|]; [|apply keeps_base_refl].
  destruct (dimensions p); [|apply keeps_base_refl].
  simpl. apply keeps_base_rename.
Qed.

Lemma keeps_base_assign_fold (ks : list nat) (st : gmap string nat * list PartInfo * World F) :
  keeps_base (snd st) (snd (fold_left assign_one ks st)).
Proof.
  revert st. induction ks as [|k ks IH]; intros st; [apply keeps_base_refl|].
  simpl. eapply keeps_base_trans; [apply keeps_base_assign_one | apply IH].
Qed.

Lemma keeps_base_assign (w : World F) :
  keeps_base w (snd (assign_materials_and_names w)).
Proof.
  unfold assign_materials_and_names.
  pose proof (keeps_base_assign_fold (seq 0 (length (parts w))) (∅, [], w)) as K.
  destruct (fold_left assign_one (seq 0 (length (parts w))) (∅, [], w)) as [[c infos] w'].
  exact K.
Qed.
End Recording.

Section RecordingRoundTrip.
Context {F : Type} `{Scalar F} `{Trig F}.

(** Recording the parts [ps], whose names differ and whose locations are in
    the store: the store only grows, every part gets an entry at a new
    address that holds a copy of its position, and every entry that is found
    afterwards was there before under another name or is at a new address. *)
Lemma record_base_fold (ps : list (Part F)) (w : World F) :
  NoDup (List.map name ps) ->
  (forall p, In p ps -> location p < length (heap w)) ->
  let w' := fold_left record_base ps w in
  (exists added, heap w' = heap w ++ added)
  /\ (forall p, In p ps ->
        exists a, base_positions w' !! name p = Some a
                  /\ length (heap w) <= a
                  /\ heap w' !! a = heap w !! location p)
  /\ (forall n, ~ In n (List.map name ps) -> base_positions w' !! n = base_positions w !! n)
  /\ (forall n a, base_positions w' !! n = Some a ->
        base_positions w !! n = Some a \/ length (heap w) <= a < length (heap w')).
Proof.
  revert w. induction ps as [|p0 ps IH]; intros w Hnd Hval.
  - simpl. split; [exists []; symmetry; apply app_nil_r|].
    split; [intros p []|]. split; [reflexivity|]. intros n a Hn. left. exact Hn.
  - simpl in Hnd. apply NoDup_cons in Hnd as [Hnot Hnd].
    assert (Hv0 : location p0 < length (heap w)) by (apply Hval; left; reflexivity).
    destruct (lookup_lt_is_Some_2 _ _ Hv0) as [v0 Ev0].
    set (w1 := record_base w p0).
    assert (Hheap1 : heap w1 = heap w ++ [v0]).
    { unfold w1, record_base, part_position, read. cbn [heap].
      unfold addr in *. rewrite Ev0. reflexivity. }
    assert (Hbase1 : base_positions w1 = <[name p0 := length (heap w)]> (base_positions w))
      by reflexivity.
    assert (Hlen1 : length (heap w1) = S (length (heap w)))
      by (rewrite Hheap1, length_app; simpl; lia).
    destruct (IH w1 Hnd) as ([added Hadd] & Hrec & Hkeep & Hrange).
    { intros p Hp. rewrite Hlen1. specialize (Hval p (or_intror Hp)). lia. }
    change (fold_left record_base (p0 :: ps) w) with (fold_left record_base ps w1).
    cbv zeta. unfold addr in *. split; [|split; [|split]].
    + exists ([v0] ++ added). rewrite Hadd, Hheap1. symmetry. apply app_assoc.
    + intros p [<-|Hp].
      * exists (length (heap w)). split; [|split; [lia|]].
        -- rewrite Hkeep by (rewrite list_elem_of_In in Hnot; exact Hnot).
           rewrite Hbase1. apply lookup_insert_eq.
        -- rewrite Hadd, lookup_app_l by lia.
           rewrite Hheap1, lookup_app_r by lia.
           rewrite Nat.sub_diag, Ev0. reflexivity.
      * destruct (Hrec p Hp) as (a & Ea & Hle & Hv).
        exists a. split; [exact Ea|]. split; [lia|].
        rewrite Hv, Hheap1. apply lookup_app_l. apply Hval. right. exact Hp.
    + intros n Hn. rewrite Hkeep by (intros Hin; apply Hn; right; exact Hin).
      rewrite Hbase1. apply lookup_insert_ne. intros E. apply Hn. left. exact E.
    + intros n a Hn. destruct (Hrange n a Hn) as [Hold|Hnew].
      * rewrite Hbase1 in Hold. destruct (decide (name p0 = n)) as [<-|Hne].
        -- rewrite lookup_insert_eq in Hold. injection Hold as <-.
           right. rewrite Hadd, length_app. lia.
        -- rewrite lookup_insert_ne in Hold by exact Hne. left. exact Hold.
      * right. lia.
Qed.
End RecordingRoundTrip.

Section RecordedPositions.
Context {F : Type} `{Scalar F} `{Trig F}.

Lemma keeps_base_arrange_grid (w : World F) : keeps_base w (arrange_grid w).
Proof. unfold arrange_grid. apply keeps_base_place_all. Qed.

(** X9.  When the parts have different names and their locations are
    vectors of the store, the position a part has when [main] starts is
    what [base_positions] holds under the name the part had then, and it
    still holds it when the step loop begins: the copies recorded are not
    affected by the renaming, by the reset for the overview, or by the
    assignments to [location.x], [location.y] and [location.z] that lay
    the parts out for the parts diagram. *)
Theorem recorded_positions_survive (store : list (Vec F)) (parts0 : list (Part F)) :
  locations_valid store parts0 -> NoDup (List.map name parts0) ->
  forall k p v, parts0 !! k = Some p -> store !! location p = Some v ->
    base_position (snd (before_steps store parts0)) (name p) = Some v.
Proof.
  intros Hval Hnd k p v Hk Hv.
  set (w0 := mkWorld store parts0 ∅ [] [] []).
  assert (Hval' : forall q, In q parts0 -> location q < length (heap w0)).
  { intros q Hq. apply list_elem_of_In, list_elem_of_lookup in Hq as [j Hj].
    exact (Hval j q Hj). }
  destruct (record_base_fold parts0 w0 Hnd Hval') as (_ & Hrec & _ & Hrange).
  destruct (record_base_fold_books parts0 w0) as [Hparts _].
  set (w1 := fold_left record_base parts0 w0) in *.
  assert (Hin : In p parts0).
  { apply list_elem_of_In, list_elem_of_lookup. exists k. exact Hk. }
  destruct (Hrec p Hin) as (a & Ea & _ & Ha).
  assert (Hapart : base_apart w1).
  { intros n b Hn. destruct (Hrange n b Hn) as [Hold|[Hlo Hhi]].
    - simpl in Hold. rewrite lookup_empty in Hold. discriminate.
    - split; [exact Hhi|]. intros j q Hq. rewrite Hparts in Hq.
      specialize (Hval j q Hq). simpl in Hlo. lia. }
  assert (K : keeps_base w1 (snd (before_steps store parts0))).
  { unfold before_steps.
    change (record_base_positions (mkWorld store parts0 ∅ [] [] [])) with w1.
    pose proof (keeps_base_assign w1) as K1.
    destruct (assign_materials_and_names w1) as [md w2]. simpl snd in *.
    eapply keeps_base_trans; [exact K1|].
    eapply keeps_base_trans; [apply keeps_base_reset_parts | apply keeps_base_arrange_grid]. }
  destruct (K Hapart) as (_ & Hbase & Hvals).
  unfold base_position, read. rewrite Hbase.
  unfold addr in *. rewrite Ea. simpl.
  rewrite (Hvals (name p) a Ea), Ha. simpl. rewrite Hv. reflexivity.
Qed.
End RecordedPositions.

Lemma recorded_positions_survive_witness :
  base_position
    (snd (before_steps [vec_of_Z 3 0 0] [mkPart "Cube" 0 (Some (vec_of_Z 4 4 4 : Vec R))]))
    "Cube"
  = Some (vec_of_Z 3 0 0).
Proof.
  refine (recorded_positions_survive [vec_of_Z 3 0 0]
            [mkPart "Cube" 0 (Some (vec_of_Z 4 4 4 : Vec R))] _ _
            0 (mkPart "Cube" 0 (Some (vec_of_Z 4 4 4))) (vec_of_Z 3 0 0) eq_refl eq_refl).
  - intros [|k] p Hp; simpl in Hp; [injection Hp as <-; simpl; lia | discriminate].
  - simpl. apply NoDup_cons. split; [apply not_elem_of_nil | apply NoDup_nil_2].
Defined.

(** ** Names and numbers of the metadata entries *)

Lemma str_of_nat_inj (a b : nat) : str_of_nat a = str_of_nat b -> a = b.
Proof.
  unfold str_of_nat. intros E.
  apply (f_equal NilEmpty.uint_of_string) in E.
  rewrite !NilEmpty.usu in E. injection E as E.
  apply DecimalNat.Unsigned.to_uint_inj. exact E.
Qed.

(** The decimal text of a positive number does not begin with ["0"]. *)
Lemma str_of_nat_head (n : nat) :
  n <> 0 -> exists c rest, str_of_nat n = String c rest /\ c <> "0"%char.
Proof.
  intros Hn. unfold str_of_nat.
  pose proof (DecimalNat.Unsigned.to_of (Nat.to_uint n)) as Hnorm.
  rewrite DecimalNat.Unsigned.of_to in Hnorm.
  pose proof (DecimalFacts.nzhead_nonzero (Nat.to_uint n)) as Hnz.
  assert (Hzero : Nat.to_uint n <> Decimal.zero).
  { intros E. apply Hn. rewrite <- (DecimalNat.Unsigned.of_to n), E. reflexivity. }
  unfold Decimal.unorm in Hnorm.
  destruct (Decimal.nzhead (Nat.to_uint n)) eqn:Eh;
    try contradiction;
    try (exfalso; eapply Hnz; reflexivity);
    rewrite Hnorm; simpl; eexists _, _; (split; [reflexivity | discriminate]).
Qed.

Lemma zeros_app_inj (k1 k2 : nat) (c1 c2 : ascii) (r1 r2 : string) :
  c1 <> "0"%char -> c2 <> "0"%char ->
  (zeros k1 ++ String c1 r1 = zeros k2 ++ String c2 r2)%string ->
  String c1 r1 = String c2 r2.
Proof.
  intros H1 H2. revert k2. induction k1 as [|k1 IH]; intros [|k2] E; simpl in E.
  - exact E.
  - injection E as Ec _. subst c1. contradiction.
  - injection E as Ec _. subst c2. contradiction.
  - injection E as E. exact (IH k2 E).
Qed.

Lemma part_id_inj (i j : nat) : part_id i = part_id j -> i = j.
Proof.
  unfold part_id, zero_padded. intros E. simpl in E. injection E as E.
  destruct (str_of_nat_head (i + 1) ltac:(lia)) as (c1 & r1 & E1 & H1).
  destruct (str_of_nat_head (j + 1) ltac:(lia)) as (c2 & r2 & E2 & H2).
  rewrite E1, E2 in E.
  apply zeros_app_inj in E; [|assumption..].
  rewrite <- E1, <- E2 in E. apply str_of_nat_inj in E. lia.
Qed.

Lemma part_name_of_inj (t1 t2 : string) (c1 c2 : nat) :
  In t1 PART_TYPES -> In t2 PART_TYPES ->
  part_name_of t1 c1 = part_name_of t2 c2 -> t1 = t2 /\ c1 = c2.
Proof.
  unfold PART_TYPES, part_name_of. intros H1 H2 E.
  simpl in H1, H2.
  repeat (destruct H1 as [<-|H1]; [|]); try contradiction;
    repeat (destruct H2 as [<-|H2]; [|]); try contradiction;
    cbn in E; try discriminate;
    (split; [reflexivity|]);
    repeat (injection E as E); apply str_of_nat_inj; exact E.
Qed.

Section Entries.
Context {F : Type} `{Scalar F}.

Lemma classify_type (dims : Vec F) : In (classify dims) PART_TYPES.
Proof.
  unfold classify, PART_TYPES.
  repeat match goal with
         | |- context [if ?b then _ else _] => destruct b
         end; simpl; tauto.
Qed.

Lemma assign_one_entries (done : list nat) (st : gmap string nat * list PartInfo * World F)
    (i : nat) :
  ~ In i done ->
  entries_ok done st.1.1 st.1.2 ->
  entries_ok (done ++ [i]) (assign_one st i).1.1 (assign_one st i).1.2.
Proof.
  destruct st as [[counts infos] w]. simpl fst. simpl snd.
  intros Hi (Hnames & Hnumbers & Hall).
  assert (Hweak : entries_ok (done ++ [i]) counts infos).
  { split; [exact Hnames|]. split; [exact Hnumbers|].
    intros info Hin. destruct (Hall info Hin) as (c & j & Ht & En & Hc & Hj & Ej).
    exists c, j. repeat split; try assumption; try lia.
    apply in_or_app. left. exact Hj. }
  unfold assign_one. simpl fst. simpl snd.
  destruct (parts w !! i) as [part|]; [|exact Hweak].
  destruct (dimensions part) as [dims|]; [|exact Hweak].
  simpl fst. simpl snd. clear Hweak.
  set (t := classify dims). set (c0 := default 0 (counts !! t)).
  pose proof (classify_type dims) as Ht. fold t in Ht.
  change (capitalize t ++ " " ++ str_of_nat (c0 + 1))%string
    with (part_name_of t (c0 + 1)).
  change ("P" ++ zero_padded 3 (i + 1))%string with (part_id i).
  split; [|split].
  - rewrite List.map_app. apply NoDup_app. split; [exact Hnames|].
    split; [|apply NoDup_singleton].
    intros x Hx Hx'. apply list_elem_of_In in Hx. simpl in Hx'.
    apply list_elem_of_singleton in Hx'. subst x.
    apply in_map_iff in Hx. destruct Hx as (info & En & Hin).
    destruct (Hall info Hin) as (c & j & Ht' & En' & Hc & _).
    rewrite En' in En. apply part_name_of_inj in En; [|assumption..].
    destruct En as [Et Ec]. rewrite Et in Hc. fold c0 in Hc. lia.
  - rewrite List.map_app. apply NoDup_app. split; [exact Hnumbers|].
    split; [|apply NoDup_singleton].
    intros x Hx Hx'. apply list_elem_of_In in Hx. simpl in Hx'.
    apply list_elem_of_singleton in Hx'. subst x.
    apply in_map_iff in Hx. destruct Hx as (info & En & Hin).
    destruct (Hall info Hin) as (c & j & _ & _ & _ & Hj & Ej).
    rewrite Ej in En. apply part_id_inj in En. subst j. contradiction.
  - intros info Hin. apply in_app_or in Hin. destruct Hin as [Hin|[<-|[]]].
    + destruct (Hall info Hin) as (c & j & Ht' & En & Hc & Hj & Ej).
      exists c, j. repeat split; try assumption; try lia.
      * destruct (decide (pi_type info = t)) as [E|E].
        -- rewrite E, lookup_insert_eq. simpl. rewrite E in Hc. fold c0 in Hc. lia.
        -- rewrite lookup_insert_ne by congruence. lia.
      * apply in_or_app. left. exact Hj.
    + exists (c0 + 1)%nat, i. simpl. repeat split; try assumption; try lia.
      * rewrite lookup_insert_eq. simpl. lia.
      * apply in_or_app. right. left. reflexivity.
Qed.

Lemma assign_fold_entries (ks done : list nat)
    (st : gmap string nat * list PartInfo * World F) :
  NoDup (done ++ ks) ->
  entries_ok done st.1.1 st.1.2 ->
  entries_ok (done ++ ks) (fold_left assign_one ks st).1.1 (fold_left assign_one ks st).1.2.
Proof.
  revert done st. induction ks as [|k ks IH]; intros done st Hnd Hok.
  - rewrite app_nil_r. exact Hok.
  - simpl fold_left.
    replace (done ++ k :: ks) with ((done ++ [k]) ++ ks) in *
      by (rewrite <- app_assoc; reflexivity).
    apply IH; [exact Hnd|].
    apply assign_one_entries; [|exact Hok].
    intros Hk. rewrite <- app_assoc in Hnd. simpl in Hnd.
    apply NoDup_app in Hnd. destruct Hnd as (_ & Hnd & _).
    apply (Hnd k); [apply list_elem_of_In; exact Hk | left].
Qed.

(** X10.  The entries [assign_materials_and_names] collects for
    [metadata['parts']] have pairwise different names and pairwise
    different numbers.  Each entry has one of the five types that have a
    colour, the name [f"{type.capitalize()} {c}"] for a count [c >= 1] and
    the number [f"P{i+1:03d}"] for the index [i] of a part of the list. *)
Theorem metadata_parts_distinct (w : World F) :
  let infos := (assign_materials_and_names w).1 in
  NoDup (List.map pi_name infos)
  /\ NoDup (List.map pi_number infos)
  /\ forall info, In info infos ->
       In (pi_type info) PART_TYPES
       /\ exists c i,
            (1 <= c)%nat /\ (i < length (parts w))%nat
            /\ pi_name info = part_name_of (pi_type info) c
            /\ pi_number info = part_id i.
Proof.
  unfold assign_materials_and_names.
  pose proof (assign_fold_entries (seq 0 (length (parts w))) [] (∅, [], w)) as Hfold.
  destruct (fold_left assign_one (seq 0 (length (parts w))) (∅, [], w))
    as [[counts infos] w'].
  simpl in Hfold |- *.
  destruct Hfold as (Hnames & Hnumbers & Hall).
  - apply NoDup_seq.
  - split; [constructor|]. split; [constructor|]. intros info [].
  - split; [exact Hnames|]. split; [exact Hnumbers|].
    intros info Hin. destruct (Hall info Hin) as (c & i & Ht & En & Hc & Hi & Ei).
    split; [exact Ht|]. exists c, i. apply in_seq in Hi.
    repeat split; try assumption; lia.
Qed.
End Entries.

(** ** The slices of the step loop *)

Section Partition.
Context {F : Type} `{Scalar F} `{Trig F}.

Lemma py_range_multiples (n s : nat) :
  1 <= s -> py_range n s = List.map (fun k => k * s) (seq 0 (ceil_div n s)).
Proof.
  intros Hs. unfold py_range. rewrite range_from_multiples by lia.
  rewrite Nat.sub_0_r. apply map_ext. intros k. lia.
Qed.

Lemma py_range_slices (n s : nat) :
  1 <= s ->
  List.concat (List.map (fun i => parts_in_this_step_indices i s n) (py_range n s))
  = seq 0 n.
Proof.
  intros Hs. unfold py_range. rewrite range_from_slices by lia.
  rewrite Nat.sub_0_r. reflexivity.
Qed.

(** X11.  For at least one part and a target of at least one step, the
  loop of [main] uses the step size [ceil(n / target)], which is at
  least 1; its passes start at [0, s, 2s, ...]; the new parts of the
  pass starting at [i] are the indices from [i] up to [min(i + s, n)];
  when that pass begins, [active_parts_in_scene] holds the indices below
  [i], the ones the explosion treats as assembled; and the slices of
  all passes, in order, are the indices [0 .. n - 1], each exactly
  once, which is also [active_parts_in_scene] when the loop ends. *)
Theorem step_slices_partition (md_parts : list PartInfo) (w : World F) (target_steps : nat) :
  1 <= length (parts w) -> 1 <= target_steps ->
  active_parts_in_scene w = [] ->
  let n := length (parts w) in
  let s := step_size_for target_steps n in
  (s = ceil_div n target_steps /\ 1 <= s
   /\ n <= s * target_steps /\ (forall k, n <= k * target_steps -> s <= k))
  /\ py_range n s = List.map (fun k => k * s) (seq 0 (ceil_div n s))
  /\ (forall k, k < ceil_div n s ->
        let i := k * s in
        nth_error (py_range n s) k = Some i
        /\ parts_in_this_step_indices i s n = seq i (Nat.min (i + s) n - i)
        /\ (forall j, In j (parts_in_this_step_indices i s n)
                      <-> i <= j < Nat.min (i + s) n)
        /\ active_parts_in_scene
             (fold_left (step_body md_parts s) (firstn k (py_range n s)) w)
           = seq 0 i
        /\ (forall j, is_assembled i j = true <-> j < i))
  /\ List.concat (List.map (fun i => parts_in_this_step_indices i s n) (py_range n s))
     = seq 0 n
  /\ active_parts_in_scene (step_loop md_parts target_steps w) = seq 0 n.
Proof.
  intros Hn Ht Hactive n s.
  destruct (step_size_for_ceil target_steps n Hn Ht) as [Es Hs].
  fold s in Es. rewrite <- Es in Hs.
  destruct (ceil_div_spec n target_steps Ht) as [Hup Hleast].
  rewrite <- Es in Hup, Hleast.
  split; [repeat split; assumption|].
  split; [apply py_range_multiples; exact Hs|].
  split; [|split].
  - intros k Hk i.
    pose proof (ceil_div_below n s k Hs Hk) as Hi. fold i in Hi.
    split; [|split; [|split; [|split]]].
    + rewrite py_range_multiples by exact Hs.
      rewrite nth_error_map, nth_error_seq.
      assert (E : (k <? ceil_div n s) = true) by (apply Nat.ltb_lt; exact Hk).
      rewrite E. reflexivity.
    + reflexivity.
    + intros j. unfold parts_in_this_step_indices. rewrite in_seq. lia.
    + rewrite steps_active, Hactive. simpl.
      rewrite py_range_multiples by exact Hs.
      rewrite firstn_map, take_seq, Nat.min_l by lia.
      apply first_slices. fold i. lia.
    + intros j. unfold is_assembled. apply Nat.ltb_lt.
  - apply py_range_slices. exact Hs.
  - unfold step_loop. fold n. fold s.
    rewrite steps_active, Hactive. simpl. apply py_range_slices. exact Hs.
Qed.
End Partition.

Lemma step_slices_partition_witness :
active_parts_in_scene (step_loop [] TARGET_STEPS (one_part_world : World R)) = seq 0 1.
Proof.
apply (step_slices_partition [] (one_part_world : World R) TARGET_STEPS).
- simpl. lia.
- unfold TARGET_STEPS. lia.
- reflexivity.
Defined.

(** ** Renamed parts and the recorded base positions *)

Section Renamed.
Context {F : Type} `{Scalar F} `{Trig F}.

Lemma record_base_fold_keys (ps : list (Part F)) (w : World F) (n : string) :
  base_positions w !! n = None -> ~ In n (List.map name ps) ->
  base_positions (fold_left record_base ps w) !! n = None.
Proof.
  revert w. induction ps as [|p ps IH]; intros w Hn Hnot; [exact Hn|].
  simpl. apply IH.
  - unfold record_base. simpl. rewrite lookup_insert_ne; [exact Hn|].
    intros E. apply Hnot. left. exact E.
  - intros Hin. apply Hnot. right. exact Hin.
Qed.

Lemma record_base_fold_rest (ps : list (Part F)) (w : World F) :
  parts (fold_left record_base ps w) = parts w
  /\ all_step_arrows (fold_left record_base ps w) = all_step_arrows w.
Proof.
  revert w. induction ps as [|p ps IH]; intros w; [split; reflexivity|].
  simpl. destruct (IH (record_base w p)) as [E1 E2]. rewrite E1, E2. split; reflexivity.
Qed.

Lemma assign_one_renamed (done : list nat) (w0 : World F)
    (st : gmap string nat * list PartInfo * World F) (i : nat) :
  renamed done w0 st.2 -> renamed (done ++ [i]) w0 (assign_one st i).2.
Proof.
  destruct st as [[counts infos] w]. simpl snd.
  intros (B & A & L & D & G). unfold assign_one.
  destruct (parts w !! i) as [part|] eqn:Ei.
  - destruct (dimensions part) as [dims|] eqn:Ed; [|destruct (D i part Ei Ed)].
    simpl snd. unfold renamed, rename. simpl.
    split; [exact B|]. split; [exact A|].
    split; [rewrite length_alter; exact L|]. split.
    + intros j p Hj. destruct (Nat.eq_dec j i) as [->|Hne].
      * rewrite list_lookup_alter_eq, Ei in Hj. simpl in Hj.
        injection Hj as <-. simpl. congruence.
      * rewrite list_lookup_alter_ne in Hj by congruence. exact (D j p Hj).
    + intros j p Hin Hj. destruct (Nat.eq_dec j i) as [->|Hne].
      * rewrite list_lookup_alter_eq, Ei in Hj. simpl in Hj.
        injection Hj as <-. simpl.
        exists (classify dims), (default 0 (counts !! classify dims) + 1).
        split; [apply classify_type | reflexivity].
      * rewrite list_lookup_alter_ne in Hj by congruence.
        apply in_app_or in Hin. destruct Hin as [Hin|[E|[]]]; [|congruence].
        exact (G j p Hin Hj).
  - simpl snd. split; [exact B|]. split; [exact A|]. split; [exact L|].
    split; [exact D|].
    intros j p Hin Hj. apply in_app_or in Hin. destruct Hin as [Hin|[E|[]]].
    + exact (G j p Hin Hj).
    + subst j. congruence.
Qed.

Lemma assign_fold_renamed (ks done : list nat) (w0 : World F)
    (st : gmap string nat * list PartInfo * World F) :
  renamed done w0 st.2 -> renamed (done ++ ks) w0 (fold_left assign_one ks st).2.
Proof.
  revert done st. induction ks as [|k ks IH]; intros done st Hr.
  - rewrite app_nil_r. exact Hr.
  - simpl fold_left.
    replace (done ++ k :: ks) with ((done ++ [k]) ++ ks)
      by (rewrite <- app_assoc; reflexivity).
    apply IH. apply assign_one_renamed. exact Hr.
Qed.

Lemma reset_parts_none_keyed (ks : list nat) (w : World F) :
  none_keyed w -> reset_parts ks w = w.
Proof.
  intros Hn. unfold reset_parts. induction ks as [|k ks IH]; [reflexivity|].
  simpl. replace (reset_part w k) with w; [exact IH|].
  unfold reset_part. destruct (parts w !! k) as [p|] eqn:Ek; [|reflexivity].
  rewrite (Hn k p Ek). reflexivity.
Qed.

Lemma explode_parts_none_keyed (i : nat) (w : World F) :
  none_keyed w -> explode_parts i w = w.
Proof.
  intros Hn. unfold explode_parts.
  generalize (assembled_center w). intros center.
  induction (seq 0 (length (parts w))) as [|k ks IH]; [reflexivity|].
  simpl. replace (explode_part i center w k) with w; [exact IH|].
  unfold explode_part. destruct (parts w !! k) as [p|] eqn:Ek; [|reflexivity].
  rewrite (Hn k p Ek). destruct (is_assembled i k); reflexivity.
Qed.

Lemma exploded_world_none_keyed (i : nat) (w : World F) :
  none_keyed w -> exploded_world i w = w.
Proof.
  intros Hn. unfold exploded_world, reset_all.
  rewrite reset_parts_none_keyed by exact Hn.
  apply explode_parts_none_keyed. exact Hn.
Qed.

Lemma arrows_none_keyed (ks : list nat) (w : World F) :
  none_keyed w -> omap (arrow_for w) ks = [].
Proof.
  intros Hn. induction ks as [|k ks IH]; [reflexivity|].
  assert (E : arrow_for w k = None).
  { unfold arrow_for. destruct (parts w !! k) as [p|] eqn:Ek; [|reflexivity].
    rewrite (Hn k p Ek). reflexivity. }
  simpl. rewrite E. exact IH.
Qed.

Lemma step_body_none_keyed (md : list PartInfo) (s : nat) (w : World F) (i : nat) :
  none_keyed w ->
  heap (step_body md s w i) = heap w
  /\ parts (step_body md s w i) = parts w
  /\ base_positions (step_body md s w i) = base_positions w
  /\ all_step_arrows (step_body md s w i) = all_step_arrows w.
Proof.
  intros Hn. unfold step_body.
  rewrite exploded_world_none_keyed by exact Hn.
  rewrite reset_parts_none_keyed by exact Hn.
  rewrite arrows_none_keyed by exact Hn.
  simpl. rewrite app_nil_r. repeat split; reflexivity.
Qed.

Lemma steps_none_keyed (md : list PartInfo) (s : nat) (starts : list nat) (w : World F) :
  none_keyed w ->
  none_keyed (fold_left (step_body md s) starts w)
  /\ heap (fold_left (step_body md s) starts w) = heap w
  /\ parts (fold_left (step_body md s) starts w) = parts w
  /\ all_step_arrows (fold_left (step_body md s) starts w) = all_step_arrows w.
Proof.
  revert w. induction starts as [|i starts IH]; intros w Hn.
  - repeat split; try reflexivity. exact Hn.
  - simpl. destruct (step_body_none_keyed md s w i Hn) as (E1 & E2 & E3 & E4).
    assert (Hn' : none_keyed (step_body md s w i)).
    { intros j p Hj. rewrite E2 in Hj. rewrite E3. exact (Hn j p Hj). }
    destruct (IH _ Hn') as (Hk & I1 & I2 & I4).
    split; [exact Hk|]. split; [congruence|]. split; congruence.
Qed.

Lemma place_all_rest (cell : nat -> Vec F) (ks : list nat) (w : World F) :
  base_positions (fold_left (fun w i => update_location i (fun _ => cell i) w) ks w)
  = base_positions w
  /\ all_step_arrows (fold_left (fun w i => update_location i (fun _ => cell i) w) ks w)
     = all_step_arrows w.
Proof.
  revert w. induction ks as [|k ks IH]; intros w; [split; reflexivity|].
  simpl. destruct (IH (update_location k (fun _ => cell k) w)) as [E1 E2].
  rewrite E1, E2. unfold update_location.
  destruct (parts w !! k); split; reflexivity.
Qed.

Lemma arrange_grid_rest (w : World F) :
  base_positions (arrange_grid w) = base_positions w
  /\ all_step_arrows (arrange_grid w) = all_step_arrows w.
Proof. unfold arrange_grid. apply place_all_rest. Qed.

(** When no part starts out under a name of the form
    [assign_materials_and_names] gives, the loop of [main] starts with
    no part's name among the keys of [base_positions] and with no
    arrow. *)
Lemma before_steps_none_keyed (store : list (Vec F)) (parts0 : list (Part F)) :
  (forall p, In p parts0 -> dimensions p <> None) ->
  (forall p, In p parts0 -> ~ generated_name (name p)) ->
  none_keyed (before_steps store parts0).2
  /\ all_step_arrows (before_steps store parts0).2 = [].
Proof.
  intros Hdims Hfresh. unfold before_steps.
  set (w0 := mkWorld store parts0 ∅ [] [] []).
  set (w1 := record_base_positions w0).
  destruct (record_base_fold_rest (parts w0) w0) as [P1 A1].
  fold (record_base_positions w0) in P1, A1. fold w1 in P1, A1.
  assert (R0 : renamed [] w1 w1).
  { split; [reflexivity|]. split; [reflexivity|]. split; [reflexivity|].
    split; [|intros j p []].
    intros j p Hj. rewrite P1 in Hj. apply Hdims.
    apply list_elem_of_In. eapply list_elem_of_lookup_2. exact Hj. }
  pose proof (assign_fold_renamed (seq 0 (length (parts w1))) [] w1 (∅, [], w1) R0) as R.
  unfold assign_materials_and_names.
  destruct (fold_left assign_one (seq 0 (length (parts w1))) (∅, [], w1))
    as [[counts infos] w2].
  simpl in R. destruct R as (B2 & A2 & L2 & _ & G2). simpl snd.
  assert (Hn2 : none_keyed w2).
  { intros j p Hj. rewrite B2. unfold w1, record_base_positions.
    apply record_base_fold_keys; [reflexivity|].
    intros Hin. apply in_map_iff in Hin. destruct Hin as (p0 & En & Hp0).
    apply (Hfresh p0 Hp0). rewrite En. apply (G2 j p); [|exact Hj].
    apply in_seq. apply lookup_lt_Some in Hj. lia. }
  unfold reset_all. rewrite reset_parts_none_keyed by exact Hn2.
  destruct (arrange_grid_books w2) as [P4 _].
  destruct (arrange_grid_rest w2) as [B4 A4].
  split.
  - intros j p Hj. rewrite P4 in Hj. rewrite B4. exact (Hn2 j p Hj).
  - rewrite A4, A2, A1. reflexivity.
Qed.

(** X12.  [base_positions] is filled under the names the parts have when
    [main] starts, and [assign_materials_and_names] then renames every
    part.  When all parts have dimensions and none starts out under a
    name of the generated form, no part's name is a key of
    [base_positions] afterwards: every reset and every explosion skips
    every part.  At every pass of the loop the explosion leaves the world
    as it is, no arrow is ever created, and the parts stay where the grid
    layout of the parts diagram put them, also after the final reset. *)
Theorem renamed_parts_never_exploded (target_steps : nat) (store : list (Vec F))
    (parts0 : list (Part F)) :
  (forall p, In p parts0 -> dimensions p <> None) ->
  (forall p, In p parts0 -> ~ generated_name (name p)) ->
  let md := (before_steps store parts0).1 in
  let w := (before_steps store parts0).2 in
  let s := step_size_for target_steps (length (parts w)) in
  none_keyed w
  /\ (forall k i,
        let wk := fold_left (step_body md s) (firstn k (py_range (length (parts w)) s)) w in
        exploded_world i wk = wk
        /\ omap (arrow_for wk) (parts_in_this_step_indices i s (length (parts wk))) = []
        /\ heap wk = heap w /\ parts wk = parts w)
  /\ all_step_arrows (step_loop md target_steps w) = []
  /\ heap (finish md (step_loop md target_steps w)).1 = heap w
  /\ parts (finish md (step_loop md target_steps w)).1 = parts w.
Proof.
  intros Hdims Hfresh md w s.
  destruct (before_steps_none_keyed store parts0 Hdims Hfresh) as [Hn Ha].
  fold w in Hn, Ha.
  split; [exact Hn|]. split.
  - intros k i wk.
    destruct (steps_none_keyed md s (firstn k (py_range (length (parts w)) s)) w Hn)
      as (Hk & E1 & E2 & _).
    fold wk in Hk, E1, E2.
    split; [apply exploded_world_none_keyed; exact Hk|].
    split; [apply arrows_none_keyed; exact Hk|].
    split; assumption.
  - destruct (steps_none_keyed md s (py_range (length (parts w)) s) w Hn)
      as (Hk & E1 & E2 & E4).
    fold s in Hk, E1, E2, E4.
    unfold step_loop. fold s.
    split; [rewrite E4; exact Ha|].
    unfold finish. cbn [fst]. simpl heap. simpl parts.
    unfold reset_all. rewrite reset_parts_none_keyed by exact Hk.
    split; assumption.
Qed.
End Renamed.

Lemma renamed_parts_never_exploded_witness :
  none_keyed
    (before_steps [vec_of_Z 3 0 0] [mkPart "Cube" 0 (Some (vec_of_Z 4 4 4 : Vec R))]).2.
Proof.
  refine (proj1 (renamed_parts_never_exploded TARGET_STEPS [vec_of_Z 3 0 0]
                   [mkPart "Cube" 0 (Some (vec_of_Z 4 4 4 : Vec R))] _ _)).
  - intros p [<-|[]]. discriminate.
  - intros p [<-|[]] (t & c & Ht & E). unfold part_name_of in E.
    simpl in Ht. destruct Ht as [<-|[<-|[<-|[<-|[<-|[]]]]]]; cbn in E; discriminate.
Defined.

(** ** The time estimate *)

Section TimeEstimate.
Context {F : Type} `{Scalar F} `{Trig F}.

Lemma assign_one_count (st : gmap string nat * list PartInfo * World F) (i : nat) :
  length (parts (assign_one st i).2) = length (parts st.2)
  /\ length (assign_one st i).1.2 <= length st.1.2 + 1.
Proof.
  destruct st as [[counts infos] w]. unfold assign_one. simpl.
  destruct (parts w !! i) as [p|]; [|simpl; lia].
  destruct (dimensions p); simpl; [|lia].
  rewrite length_alter, length_app. simpl. lia.
Qed.

Lemma assign_fold_count (ks : list nat) (st : gmap string nat * list PartInfo * World F) :
  length (fold_left assign_one ks st).1.2 <= length st.1.2 + length ks.
Proof.
  revert st. induction ks as [|k ks IH]; intros st; [simpl; lia|].
  simpl. specialize (IH (assign_one st k)).
  destruct (assign_one_count st k) as [_ Hc]. lia.
Qed.

Lemma before_steps_entries (store : list (Vec F)) (parts0 : list (Part F)) :
  length (before_steps store parts0).1 <= length parts0.
Proof.
  unfold before_steps.
  set (w0 := mkWorld store parts0 ∅ [] [] []).
  destruct (record_base_fold_books (parts w0) w0) as [P1 _].
  fold (record_base_positions w0) in P1.
  unfold assign_materials_and_names.
  pose proof (assign_fold_count (seq 0 (length (parts (record_base_positions w0))))
                (∅, [], record_base_positions w0)) as Hc.
  destruct (fold_left assign_one _ _) as [[counts infos] w2].
  simpl in Hc |- *. rewrite length_seq, P1 in Hc. exact Hc.
Qed.

(** X13.  For a non-empty list of [n] parts and a positive target, the
    time estimate [main] writes is [max(5, p + 2 * k)] minutes, where [p]
    is the number of entries of [metadata['parts']] (at most [n]) and [k]
    the number of passes of the step loop, [ceil(n / ceil(n / target))]:
    the entry appended for the final image is not counted.  The estimate
    is at least 5 and at most [max(5, n + 2 * target)]. *)
Theorem main_time_estimate (target_steps : nat) (store : list (Vec F))
    (parts0 : list (Part F)) :
  parts0 <> [] -> 1 <= target_steps ->
  let n := length parts0 in
  let k := ceil_div n (ceil_div n target_steps) in
  exists w md minutes,
    main_with target_steps store parts0 = Some (w, md)
    /\ time_estimate md = (str_of_nat minutes ++ " minutes")%string
    /\ minutes = Nat.max 5 (length (md_parts md) + 2 * k)
    /\ length (md_steps md) = k + 1
    /\ length (md_parts md) <= n
    /\ 5 <= minutes <= Nat.max 5 (n + 2 * target_steps).
Proof.
  intros Hne Ht n k.
  assert (Hn : 1 <= n) by (unfold n; destruct parts0; [congruence | simpl; lia]).
  rewrite main_with_before_steps by exact Hne.
  destruct (before_steps_books store parts0) as [P S].
  pose proof (before_steps_entries store parts0) as Hp. fold n in Hp.
  set (md0 := (before_steps store parts0).1) in *.
  set (w0 := (before_steps store parts0).2) in *.
  destruct (reset_all_frame (step_loop md0 target_steps w0)) as (_ & (_ & _ & S3) & _).
  destruct (step_size_for_ceil target_steps n Hn Ht) as [Es Hs].
  assert (Hlen : length (step_data (step_loop md0 target_steps w0)) = k).
  { unfold step_loop. rewrite steps_step_data, S, P. fold n. rewrite Es.
    simpl. apply py_range_length. exact Hs. }
  assert (Hk : k <= target_steps).
  { unfold k. apply (proj2 (ceil_div_spec n _ Hs)).
    pose proof (proj1 (ceil_div_spec n target_steps Ht)) as Hup. lia. }
  eexists _, _, _. split; [unfold finish; reflexivity|].
  cbn [time_estimate md_steps md_parts finish_metadata].
  split; [reflexivity|].
  unfold time_estimate_minutes. rewrite length_app, S3, Hlen. simpl length.
  split; [f_equal; lia|]. split; [reflexivity|]. split; [exact Hp|]. lia.
Qed.
End TimeEstimate.

Lemma main_time_estimate_witness :
  exists w md minutes,
    main_with TARGET_STEPS [vec_of_Z 3 0 0] [mkPart "Cube" 0 (Some (vec_of_Z 4 4 4 : Vec R))]
    = Some (w, md)
    /\ time_estimate md = (str_of_nat minutes ++ " minutes")%string
    /\ minutes = Nat.max 5 (length (md_parts md)
                            + 2 * ceil_div 1 (ceil_div 1 TARGET_STEPS))
    /\ length (md_steps md) = ceil_div 1 (ceil_div 1 TARGET_STEPS) + 1
    /\ length (md_parts md) <= 1
    /\ 5 <= minutes <= Nat.max 5 (1 + 2 * TARGET_STEPS).
Proof.
  apply (main_time_estimate TARGET_STEPS [vec_of_Z 3 0 0]
           [mkPart "Cube" 0 (Some (vec_of_Z 4 4 4 : Vec R))]).
  - discriminate.
  - unfold TARGET_STEPS. lia.
Defined.

(** ** Where the shaft and the head of an arrow are put *)

Local Open Scope R_scope.

Lemma scaled_offset_length (start d : Vec R) (k : R) :
  0 <= k -> vlength (vsub (vadd start (vscale d k)) start) = k * vlength d.
Proof.
  intros Hk. unfold vlength, vsub, vadd, vscale. cbn [vx vy vz].
  change (@s_sqrt R Scalar_R) with sqrt.
  change (@s_add R Scalar_R) with Rplus.
  change (@s_sub R Scalar_R) with Rminus.
  change (@s_mul R Scalar_R) with Rmult.
  replace ((vx start + vx d * k - vx start) * (vx start + vx d * k - vx start)
           + (vy start + vy d * k - vy start) * (vy start + vy d * k - vy start)
           + (vz start + vz d * k - vz start) * (vz start + vz d * k - vz start))
    with ((k * k) * (vx d * vx d + vy d * vy d + vz d * vz d)) by ring.
  rewrite sqrt_mult_alt by nra. rewrite sqrt_square by exact Hk. reflexivity.
Qed.

(** X14.  [create_arrow] places the cylinder and the cone at
    [start + direction * (height * 0.375)] and
    [start + direction * (height * 0.85)], where [direction] is the
    vector from start to end and not its unit vector.  For a segment of
    length [L] the shaft's center is therefore [0.375 * L * L] and the
    head [0.85 * L * L] away from the start: the head lies on the segment
    exactly when [L <= 1 / 0.85], and beyond the end point for every
    longer arrow. *)
Theorem create_arrow_placement (start end_ : Vec R) (part : option (Part R)) :
  1 / 100 <= vlength (vsub end_ start) ->
  let L := vlength (vsub end_ start) in
  exists arrow,
    create_arrow start end_ part = Some arrow
    /\ vlength (vsub (shaft_location arrow) start) = 375 / 1000 * L * L
    /\ vlength (vsub (head_location arrow) start) = 85 / 100 * L * L
    /\ (vlength (vsub (head_location arrow) start) <= L <-> L <= 100 / 85).
Proof.
  intros Hh L. eexists. split; [apply create_arrow_some; exact Hh|].
  cbn [shaft_location head_location]. fold L.
  assert (HL : 1 / 100 <= L) by exact Hh.
  rewrite !scaled_offset_length by lra. fold L. clearbody L.
  split; [ring|]. split; [ring|].
  split; intros Hle; nra.
Qed.

Lemma create_arrow_placement_witness :
  exists arrow,
    create_arrow (vec_of_Z 0 0 0) (vec_of_Z 0 0 2) (@None (Part R)) = Some arrow
    /\ vlength (vsub (shaft_location arrow) (vec_of_Z 0 0 0))
       = 375 / 1000 * vlength (vsub (vec_of_Z 0 0 2) (vec_of_Z 0 0 0 : Vec R))
         * vlength (vsub (vec_of_Z 0 0 2) (vec_of_Z 0 0 0 : Vec R))
    /\ vlength (vsub (head_location arrow) (vec_of_Z 0 0 0))
       = 85 / 100 * vlength (vsub (vec_of_Z 0 0 2) (vec_of_Z 0 0 0 : Vec R))
         * vlength (vsub (vec_of_Z 0 0 2) (vec_of_Z 0 0 0 : Vec R))
    /\ (vlength (vsub (head_location arrow) (vec_of_Z 0 0 0))
        <= vlength (vsub (vec_of_Z 0 0 2) (vec_of_Z 0 0 0 : Vec R))
        <-> vlength (vsub (vec_of_Z 0 0 2) (vec_of_Z 0 0 0 : Vec R)) <= 100 / 85).
Proof.
  apply (create_arrow_placement (vec_of_Z 0 0 0) (vec_of_Z 0 0 2) None).
  replace (vlength (vsub (vec_of_Z 0 0 2) (vec_of_Z 0 0 0 : Vec R))) with 2; [lra|].
  unfold vlength, vsub, vec_of_Z. simpl.
  replace ((0 - 0) * (0 - 0) + (0 - 0) * (0 - 0) + (2 - 0) * (2 - 0)) with (2 * 2) by lra.
  symmetry. apply sqrt_square. lra.
Defined.

Local Close Scope R_scope.

(** ** The grid of the parts diagram *)

Section Grid.
Context {F : Type} `{Scalar F}.

Lemma update_location_heap_other (k : nat) (f : Vec F -> Vec F) (w : World F) (a : addr) :
  (forall p, parts w !! k = Some p -> location p <> a) ->
  heap (update_location k f w) !! a = heap w !! a.
Proof.
  intros Hne. unfold update_location.
  destruct (parts w !! k) as [p|]; [|reflexivity].
  simpl. apply list_lookup_alter_ne. apply Hne. reflexivity.
Qed.

Lemma update_location_heap_length (k : nat) (f : Vec F -> Vec F) (w : World F) :
  length (heap (update_location k f w)) = length (heap w).
Proof.
  unfold update_location. destruct (parts w !! k); [|reflexivity].
  simpl. apply length_alter.
Qed.

Lemma place_all_heap_other (cell : nat -> Vec F) (ks : list nat) (w : World F) (a : addr) :
  (forall k p, In k ks -> parts w !! k = Some p -> location p <> a) ->
  heap (fold_left (fun w i => update_location i (fun _ => cell i) w) ks w) !! a
  = heap w !! a.
Proof.
  revert w. induction ks as [|k ks IH]; intros w Hne; [reflexivity|].
  simpl. rewrite IH.
  - apply update_location_heap_other. intros p. apply Hne. left. reflexivity.
  - intros k' p Hin. rewrite (proj1 (update_location_books k _ w)).
    apply Hne. right. exact Hin.
Qed.

Lemma place_all_placed (cell : nat -> Vec F) (ks : list nat) (w : World F)
    (i : nat) (p : Part F) :
  locations_distinct (parts w) -> locations_valid (heap w) (parts w) ->
  In i ks -> parts w !! i = Some p ->
  heap (fold_left (fun w i => update_location i (fun _ => cell i) w) ks w) !! location p
  = Some (cell i).
Proof.
  revert w. induction ks as [|k ks IH]; intros w Hd Hv Hin Hp; [destruct Hin|].
  simpl.
  destruct (in_dec Nat.eq_dec i ks) as [Hin'|Hnot].
  - apply IH; try assumption.
    + rewrite (proj1 (update_location_books k _ w)). exact Hd.
    + rewrite (proj1 (update_location_books k _ w)). intros j q Hj.
      rewrite update_location_heap_length. exact (Hv j q Hj).
    + rewrite (proj1 (update_location_books k _ w)). exact Hp.
  - destruct Hin as [->|Hin]; [|contradiction].
    rewrite place_all_heap_other.
    + unfold update_location. rewrite Hp. simpl.
      rewrite list_lookup_alter_eq.
      destruct (lookup_lt_is_Some_2 (heap w) (location p) (Hv i p Hp)) as [v Ev].
      unfold addr in *. rewrite Ev. reflexivity.
    + intros k' q Hk' Hq E. rewrite (proj1 (update_location_books i _ w)) in Hq.
      apply Hnot. rewrite <- (Hd k' i q p Hq Hp E). exact Hk'.
Qed.
End Grid.

Lemma ceil_sqrt_covers (n : nat) : n <= ceil_sqrt n * ceil_sqrt n.
Proof.
  unfold ceil_sqrt. pose proof (Nat.sqrt_spec n (Nat.le_0_l n)) as [Hlo Hhi].
  destruct (Nat.eqb_spec (Nat.sqrt n * Nat.sqrt n) n) as [E|E]; simpl in *; lia.
Qed.

Lemma ceil_sqrt_least (n g : nat) : n <= g * g -> ceil_sqrt n <= g.
Proof.
  intros Hg. unfold ceil_sqrt.
  pose proof (Nat.sqrt_spec n (Nat.le_0_l n)) as [Hlo Hhi].
  destruct (Nat.eqb_spec (Nat.sqrt n * Nat.sqrt n) n) as [E|E]; simpl in *; nia.
Qed.

Local Open Scope R_scope.

(** X15.  When no two parts share a location vector, the parts diagram
    puts part [i] of [n] in column [i mod g] and row [i / g] of a square
    grid of side [g = ceil(sqrt(n))], the least side that holds [n]
    cells: at [(col * spacing, -row * spacing, 0)] with a spacing of at
    least [1.5].  Rows and columns stay below [g], and different parts
    get different positions. *)
Theorem arrange_grid_cells (w : World R) :
  locations_distinct (parts w) -> locations_valid (heap w) (parts w) ->
  let n := length (parts w) in
  let g := ceil_sqrt n in
  exists spacing,
    15 / 10 <= spacing
    /\ (n <= g * g)%nat
    /\ (forall g', (n <= g' * g')%nat -> (g <= g')%nat)
    /\ (forall i, (i < n)%nat ->
          (i mod g < g)%nat /\ (i / g < g)%nat
          /\ position_at (arrange_grid w) i
             = Some (mkVec (IZR (Z.of_nat (i mod g)) * spacing)
                           (IZR (- Z.of_nat (i / g)) * spacing) 0))
    /\ (forall i j, (i < n)%nat -> (j < n)%nat -> i <> j ->
          position_at (arrange_grid w) i <> position_at (arrange_grid w) j).
Proof.
  intros Hd Hv n g.
  pose proof (ceil_sqrt_covers n) as Hcov. fold g in Hcov.
  set (spacing :=
         py_max (py_sum (List.map (fun p => get_object_size (Some p)) (parts w))
                 / s_of_Z (Z.of_nat n) * dec 25 10)%sc (dec 15 10)).
  assert (Hsp : 15 / 10 <= spacing).
  { unfold spacing. rewrite py_max_R. unfold_consts. apply Rmax_r. }
  assert (Hcell : forall i, (i < n)%nat ->
            (i mod g < g)%nat /\ (i / g < g)%nat
            /\ position_at (arrange_grid w) i
               = Some (mkVec (IZR (Z.of_nat (i mod g)) * spacing)
                             (IZR (- Z.of_nat (i / g)) * spacing) 0)).
  { intros i Hi.
    assert (Hg : (g <> 0)%nat) by (intros E; rewrite E in Hcov; simpl in Hcov; lia).
    split; [apply Nat.mod_upper_bound; exact Hg|].
    split; [apply Nat.Div0.div_lt_upper_bound; lia|].
    destruct (lookup_lt_is_Some_2 (parts w) i Hi) as [p Hp].
    unfold position_at. rewrite (proj1 (arrange_grid_books w)), Hp. simpl.
    unfold part_position, read. f_equal.
    unfold arrange_grid. fold n. fold g. fold spacing.
    rewrite (place_all_placed
               (fun i => mkVec (s_of_Z (Z.of_nat (i mod g)) * spacing)%sc
                               (s_of_Z (- Z.of_nat (i / g)) * spacing)%sc
                               (s_of_Z 0)) (seq 0 n) w i p Hd Hv);
      [reflexivity | apply in_seq; lia | exact Hp]. }
  exists spacing. split; [exact Hsp|]. split; [exact Hcov|].
  split; [intros g'; apply ceil_sqrt_least|]. split; [exact Hcell|].
  intros i j Hi Hj Hne E.
  destruct (Hcell i Hi) as (_ & _ & Ei). destruct (Hcell j Hj) as (_ & _ & Ej).
  rewrite Ei, Ej in E. injection E as Ex Ey.
  apply Rmult_eq_reg_r in Ex; [|lra]. apply Rmult_eq_reg_r in Ey; [|lra].
  apply eq_IZR in Ex. apply eq_IZR in Ey.
  apply Hne.
  rewrite (Nat.div_mod_eq i g), (Nat.div_mod_eq j g).
  assert (Em : (i mod g = j mod g)%nat) by lia.
  assert (Ed : (i / g = j / g)%nat) by lia.
  rewrite Em, Ed. reflexivity.
Qed.

Lemma arrange_grid_cells_witness :
  exists spacing,
    15 / 10 <= spacing
    /\ position_at (arrange_grid (one_part_world : World R)) 0
       = Some (mkVec (IZR (Z.of_nat (0 mod 1)) * spacing)
                     (IZR (- Z.of_nat (0 / 1)) * spacing) 0).
Proof.
  destruct (arrange_grid_cells (one_part_world : World R)) as (sp & Hsp & _ & _ & Hc & _).
  - intros [|i] [|j] p q Hp Hq _; simpl in Hp, Hq; try discriminate; reflexivity.
  - intros [|k] p Hp; simpl in Hp; [injection Hp as <-; simpl; lia | discriminate].
  - exists sp. split; [exact Hsp|].
    exact (proj2 (proj2 (Hc 0%nat ltac:(simpl; lia)))).
Defined.

Local Close Scope R_scope.

(** ** The part numbers listed by the step entries *)

Local Open Scope nat_scope.

Lemma filter_none {A : Type} (P : A -> bool) (l : list A) :
  (forall x, In x l -> P x = false) -> List.filter P l = [].
Proof.
  induction l as [|x l IH]; intros Hl; [reflexivity|].
  simpl. rewrite (Hl x (or_introl eq_refl)). apply IH.
  intros y Hy. apply Hl. right. exact Hy.
Qed.

Lemma filter_all {A : Type} (P : A -> bool) (l : list A) :
  (forall x, In x l -> P x = true) -> List.filter P l = l.
Proof.
  induction l as [|x l IH]; intros Hl; [reflexivity|].
  simpl. rewrite (Hl x (or_introl eq_refl)). f_equal. apply IH.
  intros y Hy. apply Hl. right. exact Hy.
Qed.

Lemma existsb_eqb_In (a : string) (names : list string) :
  existsb (String.eqb a) names = true <-> In a names.
Proof.
  rewrite existsb_exists. split.
  - intros (x & Hx & E). apply String.eqb_eq in E. subst x. exact Hx.
  - intros Ha. exists a. split; [exact Ha | apply String.eqb_refl].
Qed.

(** Filtering a list without repeated keys by the keys of one of its
    segments gives that segment. *)
Lemma filter_segment {A : Type} (f : A -> string) (l : list A) (i len : nat) :
  NoDup (f <$> l) ->
  List.filter (fun x => existsb (String.eqb (f x)) (f <$> take len (drop i l))) l
  = take len (drop i l).
Proof.
  intros Hnd.
  set (l1 := take i l). set (l2 := take len (drop i l)). set (l3 := drop len (drop i l)).
  assert (El : l = l1 ++ l2 ++ l3).
  { unfold l1, l2, l3. rewrite (take_drop len (drop i l)), (take_drop i l). reflexivity. }
  assert (Hgen : forall names, names = f <$> l2 -> NoDup (f <$> l) ->
            List.filter (fun x => existsb (String.eqb (f x)) names) l = l2).
  { intros names En Hnd'. rewrite El in Hnd' |- *.
    rewrite !fmap_app in Hnd'.
    apply NoDup_app in Hnd'. destruct Hnd' as (_ & H12 & Hnd').
    apply NoDup_app in Hnd'. destruct Hnd' as (_ & H23 & _).
    rewrite !List.filter_app.
    rewrite (filter_none _ l1), (filter_all _ l2), (filter_none _ l3).
    - rewrite app_nil_r. reflexivity.
    - intros x Hx. apply not_true_is_false. intros E.
      apply existsb_eqb_In in E. rewrite En in E.
      apply list_elem_of_In in E. apply (H23 (f x)); [exact E|].
      apply list_elem_of_fmap. exists x. split; [reflexivity|].
      apply list_elem_of_In. exact Hx.
    - intros x Hx. apply existsb_eqb_In. rewrite En.
      apply list_elem_of_In. apply list_elem_of_fmap. exists x.
      split; [reflexivity | apply list_elem_of_In; exact Hx].
    - intros x Hx. apply not_true_is_false. intros E.
      apply existsb_eqb_In in E. rewrite En in E.
      apply list_elem_of_In in E.
      apply (H12 (f x)); [|apply elem_of_app; left; exact E].
      apply list_elem_of_fmap. exists x. split; [reflexivity|].
      apply list_elem_of_In. exact Hx. }
  apply Hgen; [reflexivity | exact Hnd].
Qed.

Lemma omap_lookup_seq {A B : Type} (g : A -> B) (l : list A) (i len : nat) :
  i + len <= length l ->
  omap (fun k => g <$> l !! k) (seq i len) = g <$> take len (drop i l).
Proof.
  revert i. induction len as [|len IH]; intros i Hi; [reflexivity|].
  destruct (lookup_lt_is_Some_2 l i ltac:(lia)) as [x Hx].
  simpl. rewrite Hx. simpl. rewrite (drop_S l x i Hx). simpl.
  f_equal. apply IH. lia.
Qed.

Section StepIds.
Context {F : Type} `{Scalar F} `{Trig F}.

(** After the first [k] parts have been gone through, the entries are
    those of the parts [0 .. k-1], in order, each under the name its part
    now carries. *)
Lemma assign_prefix (w0 : World F) (k : nat) :
  (forall j p, parts w0 !! j = Some p -> dimensions p <> None) ->
  k <= length (parts w0) ->
  let st := fold_left assign_one (seq 0 k) (∅, [], w0) in
  pi_blender_name <$> st.1.2 = take k (name <$> parts st.2)
  /\ pi_name <$> st.1.2 = pi_blender_name <$> st.1.2
  /\ pi_number <$> st.1.2 = part_id <$> seq 0 k
  /\ length (parts st.2) = length (parts w0)
  /\ (forall j p, parts st.2 !! j = Some p -> dimensions p <> None).
Proof.
  intros Hdims. induction k as [|k IH]; intros Hk.
  - simpl. repeat split; try reflexivity. exact Hdims.
  - rewrite seq_S, fold_left_app. simpl fold_left.
    specialize (IH ltac:(lia)). cbv zeta in IH |- *.
    destruct (fold_left assign_one (seq 0 k) (∅, [], w0)) as [[counts infos] w].
    simpl in IH. destruct IH as (Eb & En & Ei & L & D).
    unfold assign_one.
    destruct (lookup_lt_is_Some_2 (parts w) k ltac:(lia)) as [p Hp].
    rewrite Hp. destruct (dimensions p) as [dims|] eqn:Ed; [|destruct (D k p Hp Ed)].
    simpl fst. simpl snd. unfold rename. simpl parts.
    set (new_name := (capitalize (classify dims) ++ " "
                      ++ str_of_nat (default 0 (counts !! classify dims) + 1))%string).
    set (g := fun q : Part F => mkPart new_name (location q) (dimensions q)).
    split; [|split; [|split; [|split]]].
    + rewrite fmap_app. simpl.
      erewrite take_S_r.
      * rewrite <- fmap_take, take_alter.
        destruct (decide (k < k)) as [Hkk|_]; [lia|].
        rewrite fmap_take, <- Eb. reflexivity.
      * rewrite list_lookup_fmap, list_lookup_alter_eq, Hp. reflexivity.
    + rewrite !fmap_app, En. reflexivity.
    + rewrite !fmap_app, Ei. reflexivity.
    + rewrite length_alter. exact L.
    + intros j q Hj. destruct (Nat.eq_dec j k) as [->|Hne].
      * rewrite list_lookup_alter_eq, Hp in Hj. simpl in Hj.
        injection Hj as <-. simpl. congruence.
      * rewrite list_lookup_alter_ne in Hj by congruence. exact (D j q Hj).
Qed.

Lemma frame_names (w w' : World F) :
  frame w w' -> name <$> parts w' = name <$> parts w.
Proof.
  intros (_ & _ & L & P & _). apply list_eq. intros k.
  rewrite !list_lookup_fmap.
  destruct (parts w !! k) as [p|] eqn:Ek.
  - destruct (P k p Ek) as (p' & Ek' & N & _). rewrite Ek'. simpl. congruence.
  - apply lookup_ge_None in Ek. rewrite <- L in Ek.
    apply lookup_ge_None in Ek. rewrite Ek. reflexivity.
Qed.

(** The numbers a step entry lists, when the entries of
    [metadata['parts']] are those of the parts in order. *)
Lemma step_entry_ids (md : list PartInfo) (w : World F) (i step_num len : nat) :
  pi_blender_name <$> md = name <$> parts w ->
  pi_number <$> md = part_id <$> seq 0 (length (parts w)) ->
  NoDup (pi_blender_name <$> md) ->
  i + len <= length (parts w) ->
  parts_added_ids (step_entry md w i step_num (seq i len)) = part_id <$> seq i len.
Proof.
  intros Eb Ei Hnd Hi. unfold step_entry. cbn [parts_added_ids].
  assert (Hlen : length md = length (parts w)).
  { rewrite <- (length_fmap pi_blender_name md), Eb, length_fmap. reflexivity. }
  rewrite omap_lookup_seq by exact Hi.
  rewrite fmap_take, fmap_drop, <- Eb, <- fmap_drop, <- fmap_take.
  change (List.map pi_number ?l) with (pi_number <$> l).
  rewrite (filter_segment pi_blender_name md i len Hnd).
  rewrite fmap_take, fmap_drop, Ei, <- fmap_drop, <- fmap_take.
  rewrite drop_seq, take_seq. f_equal. f_equal. lia.
Qed.

Lemma step_body_entry (md : list PartInfo) (s : nat) (w : World F) (i : nat) :
  i <= length (parts w) ->
  pi_blender_name <$> md = name <$> parts w ->
  pi_number <$> md = part_id <$> seq 0 (length (parts w)) ->
  NoDup (pi_blender_name <$> md) ->
  name <$> parts (step_body md s w i) = name <$> parts w
  /\ parts_added_ids <$> step_data (step_body md s w i)
     = (parts_added_ids <$> step_data w)
       ++ [part_id <$> parts_in_this_step_indices i s (length (parts w))].
Proof.
  intros Hi Eb Ei Hnd.
  pose proof (exploded_world_frame i w) as F1.
  pose proof (reset_parts_frame (active_parts_in_scene w) (exploded_world i w)) as F2.
  pose proof (frame_trans _ _ _ F1 F2) as F12.
  set (w2 := reset_parts (active_parts_in_scene w) (exploded_world i w)) in *.
  pose proof (frame_names _ _ F12) as N.
  destruct F12 as (_ & (_ & _ & S2) & L2 & _).
  unfold step_body. fold w2. cbn [parts step_data].
  split; [exact N|].
  rewrite fmap_app, S2. f_equal. cbn [fmap list_fmap]. f_equal.
  unfold parts_in_this_step_indices.
  apply step_entry_ids.
  - rewrite N. exact Eb.
  - rewrite L2. exact Ei.
  - exact Hnd.
  - rewrite L2. lia.
Qed.

Lemma steps_entries (md : list PartInfo) (s : nat) (starts : list nat) (w : World F) :
  (forall i, In i starts -> i <= length (parts w)) ->
  pi_blender_name <$> md = name <$> parts w ->
  pi_number <$> md = part_id <$> seq 0 (length (parts w)) ->
  NoDup (pi_blender_name <$> md) ->
  parts_added_ids <$> step_data (fold_left (step_body md s) starts w)
  = (parts_added_ids <$> step_data w)
    ++ ((fun i => part_id <$> parts_in_this_step_indices i s (length (parts w)))
        <$> starts).
Proof.
  revert w. induction starts as [|i starts IH]; intros w Hin Eb Ei Hnd.
  - simpl. rewrite app_nil_r. reflexivity.
  - simpl fold_left.
    destruct (step_body_entry md s w i (Hin i (or_introl eq_refl)) Eb Ei Hnd) as [N E].
    pose proof (step_body_parts_length md s w i) as L.
    rewrite IH.
    + rewrite E, L, <- app_assoc. reflexivity.
    + intros j Hj. rewrite L. apply Hin. right. exact Hj.
    + rewrite N. exact Eb.
    + rewrite L. exact Ei.
    + exact Hnd.
Qed.

(** When every part has dimensions, the loop of [main] starts with the
    entries of [metadata['parts']] being those of the parts in order:
    entry [j] carries the number [P<j+1>] and the name part [j] has. *)
Lemma before_steps_entries_in_order (store : list (Vec F)) (parts0 : list (Part F)) :
  (forall p, In p parts0 -> dimensions p <> None) ->
  let md := (before_steps store parts0).1 in
  let w := (before_steps store parts0).2 in
  pi_blender_name <$> md = name <$> parts w
  /\ pi_number <$> md = part_id <$> seq 0 (length parts0)
  /\ NoDup (pi_blender_name <$> md).
Proof.
  intros Hdims. unfold before_steps.
  set (w0 := mkWorld store parts0 ∅ [] [] []).
  set (w1 := record_base_positions w0).
  destruct (record_base_fold_books (parts w0) w0) as [P1 _].
  fold (record_base_positions w0) in P1. fold w1 in P1.
  assert (D1 : forall j p, parts w1 !! j = Some p -> dimensions p <> None).
  { intros j p Hj. rewrite P1 in Hj. apply Hdims.
    apply list_elem_of_In. eapply list_elem_of_lookup_2. exact Hj. }
  pose proof (assign_prefix w1 (length (parts w1)) D1 (Nat.le_refl _)) as Hpre.
  pose proof (assign_fold_entries (seq 0 (length (parts w1))) [] (∅, [], w1)) as Hent.
  unfold assign_materials_and_names.
  cbv zeta in Hpre.
  destruct (fold_left assign_one (seq 0 (length (parts w1))) (∅, [], w1))
    as [[counts infos] w2].
  simpl in Hpre, Hent. destruct Hpre as (Eb & En & Ei & L & _).
  destruct Hent as (Hnames & _).
  { apply NoDup_seq. }
  { split; [constructor|]. split; [constructor|]. intros info []. }
  simpl fst. simpl snd.
  pose proof (frame_names _ _ (reset_all_frame w2)) as N3.
  destruct (arrange_grid_books (reset_all w2)) as [P4 _].
  rewrite P4, N3.
  split; [|split].
  - rewrite Eb. rewrite <- L. rewrite <- (length_fmap name (parts w2)).
    apply firstn_all.
  - rewrite Ei, P1. reflexivity.
  - rewrite <- En. exact Hnames.
Qed.

(** X16.  When every part has dimensions, the step entries [main] writes
    list the part numbers slice by slice: the entry of the pass starting
    at [i] has [parts_added_ids = [P<i+1>, ..., P<min(i+s, n)>]], and the
    final entry has none.  Read in order, the entries list the numbers
    [P001 .. P<n>] of [metadata['parts']], each exactly once. *)
Theorem main_step_ids (target_steps : nat) (store : list (Vec F))
    (parts0 : list (Part F)) :
  parts0 <> [] -> 1 <= target_steps ->
  (forall p, In p parts0 -> dimensions p <> None) ->
  let n := length parts0 in
  let s := ceil_div n target_steps in
  exists w md,
    main_with target_steps store parts0 = Some (w, md)
    /\ pi_number <$> md_parts md = part_id <$> seq 0 n
    /\ parts_added_ids <$> md_steps md
       = ((fun i => part_id <$> parts_in_this_step_indices i s n) <$> py_range n s)
         ++ [[]]
    /\ concat (parts_added_ids <$> md_steps md) = pi_number <$> md_parts md.
Proof.
  intros Hne Ht Hdims n s.
  assert (Hn : 1 <= n) by (unfold n; destruct parts0; [congruence | simpl; lia]).
  rewrite main_with_before_steps by exact Hne.
  destruct (before_steps_books store parts0) as [P S].
  destruct (before_steps_entries_in_order store parts0 Hdims) as (Eb & Ei & Hnd).
  set (md0 := (before_steps store parts0).1) in *.
  set (w0 := (before_steps store parts0).2) in *.
  destruct (step_size_for_ceil target_steps n Hn Ht) as [Es Hs].
  fold s in Es, Hs.
  destruct (reset_all_frame (step_loop md0 target_steps w0)) as (_ & (_ & _ & S3) & _).
  assert (Hsteps : parts_added_ids <$> step_data (step_loop md0 target_steps w0)
                   = (fun i => part_id <$> parts_in_this_step_indices i s n)
                       <$> py_range n s).
  { unfold step_loop. rewrite P. fold n. rewrite Es.
    rewrite steps_entries.
    - rewrite S, P. reflexivity.
    - intros i Hin. rewrite P. fold n.
      rewrite py_range_multiples in Hin by exact Hs.
      apply in_map_iff in Hin. destruct Hin as (k & <- & Hk).
      apply in_seq in Hk.
      pose proof (ceil_div_below n s k Hs ltac:(lia)). lia.
    - exact Eb.
    - rewrite P. exact Ei.
    - exact Hnd. }
  eexists _, _. split; [unfold finish; reflexivity|].
  cbn [md_parts md_steps finish_metadata].
  split; [exact Ei|]. split.
  - rewrite fmap_app, S3, Hsteps. reflexivity.
  - rewrite fmap_app, S3, Hsteps, concat_app. simpl. rewrite app_nil_r, Ei.
    change (length parts0) with n.
    rewrite <- (py_range_slices n s Hs).
    change (List.map ?f ?l) with (f <$> l).
    generalize (py_range n s). intros starts.
    induction starts as [|i starts IH]; [reflexivity|].
    rewrite !fmap_cons. simpl concat. rewrite fmap_app, IH. reflexivity.
Qed.
End StepIds.

Lemma main_step_ids_witness :
  exists w md,
    main_with TARGET_STEPS [vec_of_Z 3 0 0] [mkPart "Cube" 0 (Some (vec_of_Z 4 4 4 : Vec R))]
    = Some (w, md)
    /\ pi_number <$> md_parts md = part_id <$> seq 0 1
    /\ parts_added_ids <$> md_steps md
       = ((fun i => part_id <$> parts_in_this_step_indices i (ceil_div 1 TARGET_STEPS) 1)
          <$> py_range 1 (ceil_div 1 TARGET_STEPS))
         ++ [[]]
    /\ concat (parts_added_ids <$> md_steps md) = pi_number <$> md_parts md.
Proof.
  apply (main_step_ids TARGET_STEPS [vec_of_Z 3 0 0]
           [mkPart "Cube" 0 (Some (vec_of_Z 4 4 4 : Vec R))]).
  - discriminate.
  - unfold TARGET_STEPS. lia.
  - intros p [<-|[]]. discriminate.
Defined.
